(** * Minesweeper knowledge base: a shallow embedding of [minesweeper.py]

    The development follows the classes of the program: [Sentence] and
    [MinesweeperAI], which carry the inference engine, and of [Minesweeper]
    the board and the hints it gives.

    - A board cell is a Python tuple of two integers, here a pair of [Z].
    - A Python [set] of cells is a [gset (Z * Z)]; iterating a set visits
      [elements] of it (Python fixes no order either).
    - [self.knowledge] is a Python [list] of mutable [Sentence] objects.  The
      list is the store of those objects: an object is the entry at its
      position, [mark_mine]/[mark_safe] rewrite every entry in place, and a
      reference kept across such rewrites (the [resolved_sentences] queue of
      the first half of the loop) is kept as a position.
    - [list.remove] raises [ValueError] when nothing matches; the possible
      outcomes of a call are therefore a normal return, a raised exception,
      or a loop that has not finished within the passes it was given. *)

From stdpp Require Import gmap list.
From Stdlib Require Import ZArith Lia Wellfounded.

Abbreviation Cell := (Z * Z)%type.

(** Python's [range(lo, hi)]. *)
Definition range (lo hi : Z) : list Z :=
  (λ k : nat, (lo + Z.of_nat k)%Z) <$> seq 0 (Z.to_nat (hi - lo)).

(** Python's [l[i]]: a negative index counts from the end; [None] stands for
    the [IndexError] of an index outside the list. *)
Definition py_index {A : Type} (l : list A) (i : Z) : option A :=
  if bool_decide (0 ≤ i)%Z then l !! Z.to_nat i
  else if bool_decide (- Z.of_nat (length l) ≤ i)%Z
       then l !! Z.to_nat (Z.of_nat (length l) + i)
       else None.

(** ** class Minesweeper: the board and its hints *)

Module Minesweeper.

Record t : Type := mk { height : Z; width : Z; board : list (list bool) }.

(** [self.board[i][j]], read by [nearby_mines] only after its bounds check. *)
Definition board_at (self : t) (i j : Z) : bool :=
  default false (row ← board self !! Z.to_nat i; row !! Z.to_nat j).

(** [is_mine]: [self.board[i][j]] with no check of the indices. *)
Definition is_mine (self : t) (cell : Cell) : option bool :=
  row ← py_index (board self) cell.1; py_index row cell.2.

(** The body of the two nested loops of [nearby_mines] for one [(i, j)]. *)
Definition visit (self : t) (cell : Cell) (i j : Z) (count : Z) : Z :=
  if bool_decide ((i, j) = cell) then count
  else if bool_decide ((0 ≤ i ∧ i < height self)%Z ∧ (0 ≤ j ∧ j < width self)%Z)
       then (if board_at self i j then count + 1 else count)%Z
       else count.

Definition nearby_mines (self : t) (cell : Cell) : Z :=
  foldl (λ count i,
           foldl (λ count j, visit self cell i j count) count
                 (range (cell.2 - 1) (cell.2 + 2)))
        0%Z (range (cell.1 - 1) (cell.1 + 2)).

End Minesweeper.

(** ** class Sentence *)

Module Sentence.

Record t : Type := mk { cells : gset Cell; count : Z }.

(** [Sentence(cells, count)]: [self.cells = set(cells)]. *)
Definition init (cs : list Cell) (n : Z) : t :=
  {| cells := list_to_set cs; count := n |}.

(** [__eq__]: [self.cells == other.cells and self.count == other.count]. *)
Definition eq (self other : t) : bool :=
  bool_decide (cells self = cells other) && bool_decide (count self = count other).

(** [known_mines]: [self.cells] when [len(self.cells) == self.count]. *)
Definition known_mines (self : t) : gset Cell :=
  if bool_decide (Z.of_nat (size (cells self)) = count self) then cells self else ∅.

(** [known_safes]: [self.cells] when [not self.count]. *)
Definition known_safes (self : t) : gset Cell :=
  if bool_decide (count self = 0%Z) then cells self else ∅.

Definition mark_mine (self : t) (cell : Cell) : t :=
  if bool_decide (cell ∈ cells self)
  then {| cells := cells self ∖ {[cell]}; count := (count self - 1)%Z |}
  else self.

Definition mark_safe (self : t) (cell : Cell) : t :=
  if bool_decide (cell ∈ cells self)
  then {| cells := cells self ∖ {[cell]}; count := count self |}
  else self.

End Sentence.

#[global] Instance Sentence_eq_dec : EqDecision Sentence.t.
Proof. solve_decision. Defined.

(** ** Outcomes of a method call *)

Inductive exn : Type := ValueError.

Inductive outcome (A : Type) : Type :=
| Returns (a : A)
| Raises (e : exn)
| OutOfFuel.
Arguments Returns {A} a.
Arguments Raises {A} e.
Arguments OutOfFuel {A}.

Definition bind {A B : Type} (m : outcome A) (k : A → outcome B) : outcome B :=
  match m with
  | Returns a => k a
  | Raises e => Raises e
  | OutOfFuel => OutOfFuel
  end.

Notation "x ←! m ; k" := (bind m (λ x, k))
  (at level 20, m at level 100, k at level 200, right associativity, only parsing).

(** ** Python list operations on [self.knowledge] *)

(** [l.remove(x)]: drops the first entry [y] with [y == x]; [None] stands for
    the [ValueError] raised when there is none. *)
Fixpoint list_remove (x : Sentence.t) (l : list Sentence.t) : option (list Sentence.t) :=
  match l with
  | [] => None
  | y :: l' => if Sentence.eq y x then Some l' else (y ::.) <$> list_remove x l'
  end.

(** [for s in queue: l.remove(s)] with no handler: the first failure raises. *)
Fixpoint remove_each (queue : list Sentence.t) (l : list Sentence.t)
  : outcome (list Sentence.t) :=
  match queue with
  | [] => Returns l
  | s :: queue' =>
      match list_remove s l with
      | Some l' => remove_each queue' l'
      | None => Raises ValueError
      end
  end.

(** [for s in queue: try: l.remove(s) except ValueError: pass]. *)
Fixpoint remove_each_quiet (queue : list Sentence.t) (l : list Sentence.t)
  : list Sentence.t :=
  match queue with
  | [] => l
  | s :: queue' => remove_each_quiet queue' (default l (list_remove s l))
  end.

(** ** class Minesweeper: construction *)

Module MinesweeperGame.

(** The whole object: the board with its dimensions, [self.mines] and
    [self.mines_found]. *)
Record t : Type := mk {
  grid : Minesweeper.t;
  mines : gset Cell;
  mines_found : gset Cell
}.

(** Lines 18-23: [height] rows of [width] times [False], built by appending. *)
Definition empty_board (height width : Z) : list (list bool) :=
  foldl (λ board _, board ++ [foldl (λ row _, row ++ [false]) [] (range 0 width)])
        [] (range 0 height).

(** [random.randrange(n)] for the draw [d] of the generator: a number below
    [n], or [ValueError] when [n] is not positive. *)
Definition randrange (n : Z) (d : nat) : outcome Z :=
  if bool_decide (0 < n)%Z then Returns (Z.of_nat d `mod` n)%Z else Raises ValueError.

(** [self.board[i][j] = True], for [i] and [j] within the board. *)
Definition set_mine (board : list (list bool)) (i j : Z) : list (list bool) :=
  alter (λ row, <[Z.to_nat j := true]> row) (Z.to_nat i) board.

(** Lines 26-31: [while len(self.mines) != mines], one pair of draws for each
    iteration.  The draws are below [height] and [width], so [self.board[i][j]]
    is read within the board built above. *)
Fixpoint place (target height width : Z) (draws : list (nat * nat))
    (board : list (list bool)) (placed : gset Cell)
  : outcome (list (list bool) * gset Cell) :=
  if bool_decide (Z.of_nat (size placed) = target) then Returns (board, placed)
  else match draws with
       | [] => OutOfFuel
       | (d1, d2) :: draws' =>
           i ←! randrange height d1;
           j ←! randrange width d2;
           if Minesweeper.board_at (Minesweeper.mk height width board) i j
           then place target height width draws' board placed
           else place target height width draws' (set_mine board i j) ({[(i, j)]} ∪ placed)
       end.

(** [Minesweeper(height, width, mines)]. *)
Definition init (height width target : Z) (draws : list (nat * nat)) : outcome t :=
  r ←! place target height width draws (empty_board height width) ∅;
  Returns {| grid := Minesweeper.mk height width r.1; mines := r.2; mines_found := ∅ |}.

(** [won]: [self.mines_found == self.mines]. *)
Definition won (self : t) : bool := bool_decide (mines_found self = mines self).

End MinesweeperGame.

(** ** class MinesweeperAI *)

Module MinesweeperAI.

Record t : Type := mk {
  height : Z;
  width : Z;
  moves_made : gset Cell;
  mines : gset Cell;
  safes : gset Cell;
  knowledge : list Sentence.t
}.

Definition init (h w : Z) : t :=
  {| height := h; width := w; moves_made := ∅; mines := ∅; safes := ∅;
     knowledge := [] |}.

Definition set_knowledge (self : t) (k : list Sentence.t) : t :=
  {| height := height self; width := width self; moves_made := moves_made self;
     mines := mines self; safes := safes self; knowledge := k |}.

Definition mark_mine (self : t) (cell : Cell) : t :=
  {| height := height self; width := width self; moves_made := moves_made self;
     mines := {[cell]} ∪ mines self; safes := safes self;
     knowledge := (λ s, Sentence.mark_mine s cell) <$> knowledge self |}.

Definition mark_safe (self : t) (cell : Cell) : t :=
  {| height := height self; width := width self; moves_made := moves_made self;
     mines := mines self; safes := {[cell]} ∪ safes self;
     knowledge := (λ s, Sentence.mark_safe s cell) <$> knowledge self |}.

(** The adjacent cells computed at the top of [add_knowledge]. *)
Definition neighbours (self : t) (cell : Cell) : list Cell :=
  i ← range (cell.1 - 1) (cell.1 + 2);
  j ← range (cell.2 - 1) (cell.2 + 2);
  if bool_decide ((i ≠ cell.1 ∨ j ≠ cell.2)
                  ∧ (0 ≤ i ∧ i < height self)%Z ∧ (0 ≤ j ∧ j < width self)%Z)
  then [(i, j)] else [].

(** Lines 201-227: record the move, build the sentence of the neighbours,
    append it, then prune it in place.  The appended object is the entry at
    position [len(self.knowledge) - 1]; the two pruning loops rewrite that
    entry only.  (The [print] of the corner neighbours writes to standard
    output and touches no field.) *)
Definition add_sentence (self : t) (cell : Cell) (n : Z) : t :=
  let self := {| height := height self; width := width self;
                 moves_made := {[cell]} ∪ moves_made self;
                 mines := mines self; safes := safes self;
                 knowledge := knowledge self |} in
  let self := mark_safe self cell in
  let new_sentence := Sentence.init (neighbours self cell) n in
  let ref := length (knowledge self) in
  let self := set_knowledge self (knowledge self ++ [new_sentence]) in
  let self :=
    foldl (λ a c, set_knowledge a (alter (λ s, Sentence.mark_safe s c) ref (knowledge a)))
          self (elements (safes self)) in
  foldl (λ a c, set_knowledge a (alter (λ s, Sentence.mark_mine s c) ref (knowledge a)))
        self (elements (mines self)).

(** Lines 246-250: [self.mark_safe] on every cell of the first tuple, then
    [self.mark_mine] on every cell of the second. *)
Definition mark_known (self : t) (safes mines : list Cell) : t :=
  foldl mark_mine (foldl mark_safe self safes) mines.

(** Body of [for sentence in self.knowledge] (lines 240-256) for the object
    at position [i].  Both tuples are taken before anything is marked;
    [len(sentence.cells)] is read after the marking. *)
Definition examine (st : t * list nat * bool) (i : nat) : t * list nat * bool :=
  let '(self, resolved_sentences, done) := st in
  match knowledge self !! i with
  | None => st
  | Some sentence =>
      let safes := elements (Sentence.known_safes sentence) in
      let mines := elements (Sentence.known_mines sentence) in
      let self := mark_known self safes mines in
      let cells_now := from_option Sentence.cells ∅ (knowledge self !! i) in
      if bool_decide (safes ≠ []) || bool_decide (mines ≠ [])
         || bool_decide (size cells_now = 0)
      then (self, resolved_sentences ++ [i], false)
      else (self, resolved_sentences, done)
  end.

(** Lines 237-260: examine every sentence, then remove the queued ones. *)
Definition resolve (self : t) : outcome (t * bool) :=
  let '(self, resolved_sentences, done) :=
    foldl examine (self, [], true) (seq 0 (length (knowledge self))) in
  k ←! remove_each (omap (λ i, knowledge self !! i) resolved_sentences) (knowledge self);
  Returns (set_knowledge self k, done).

(** The pairs [(sentence, sentence2)] that pass both tests of lines 266-273,
    in the order the nested loops meet them. *)
Definition subset_pairs (k : list Sentence.t) : list (Sentence.t * Sentence.t) :=
  sentence ← k;
  sentence2 ← k;
  if bool_decide (Sentence.cells sentence = Sentence.cells sentence2) then []
  else if bool_decide (Sentence.cells sentence ⊆ Sentence.cells sentence2)
       then [(sentence, sentence2)] else [].

(** [Sentence(sentence2.cells.difference(sentence.cells),
              sentence2.count - sentence.count)]. *)
Definition difference (p : Sentence.t * Sentence.t) : Sentence.t :=
  Sentence.init (elements (Sentence.cells p.2 ∖ Sentence.cells p.1))
                (Sentence.count p.2 - Sentence.count p.1)%Z.

(** Lines 262-293 on the list of sentences. *)
Definition subsume_list (k : list Sentence.t) : list Sentence.t :=
  let pairs := subset_pairs k in
  let new_sentences := difference <$> pairs in
  let resolved_sentences := snd <$> pairs in
  remove_each_quiet resolved_sentences (k ++ new_sentences).

Definition subsume (self : t) (done : bool) : t * bool :=
  (set_knowledge self (subsume_list (knowledge self)),
   done && bool_decide (subset_pairs (knowledge self) = [])).

(** One iteration of [while not done]. *)
Definition pass (self : t) : outcome (t * bool) :=
  r ←! resolve self;
  Returns (subsume r.1 r.2).

(** [while not done], given the number of iterations it may take. *)
Fixpoint loop (fuel : nat) (self : t) : outcome t :=
  match fuel with
  | O => OutOfFuel
  | S fuel' =>
      r ←! pass self;
      if r.2 then Returns r.1 else loop fuel' r.1
  end.

Definition add_knowledge (fuel : nat) (self : t) (cell : Cell) (n : Z) : outcome t :=
  loop fuel (add_sentence self cell n).

(** [make_safe_move]: [list(self.safes.difference(self.moves_made))[0]], or
    [None].  The object is returned alongside the answer. *)
Definition make_safe_move (self : t) : option Cell * t :=
  (head (elements (safes self ∖ moves_made self)), self).

(** The set [moves] of [make_random_move] after [difference_update]. *)
Definition random_candidates (self : t) : gset Cell :=
  let moves : gset Cell :=
    list_to_set (i ← range 0 (width self); j ← range 0 (height self); [(i, j)]) in
  moves ∖ moves_made self ∖ mines self.

(** [make_random_move]; [draw] is what the generator behind
    [random.choice] produces, reduced to an index of the list. *)
Definition make_random_move (self : t) (draw : nat) : option Cell * t :=
  let moves := elements (random_candidates self) in
  (moves !! (draw `mod` length moves), self).

End MinesweeperAI.

(** Several hints in a row, each through [add_knowledge]. *)
Fixpoint play (fuel : nat) (ai : MinesweeperAI.t) (hints : list (Cell * Z))
  : outcome MinesweeperAI.t :=
  match hints with
  | [] => Returns ai
  | (cell, n) :: hints' =>
      ai' ←! MinesweeperAI.add_knowledge fuel ai cell n;
      play fuel ai' hints'
  end.


(** ** Measures and orders used for the termination of the loop *)

(** The cells mentioned by some held sentence. *)
Definition covered (k : list Sentence.t) : gset Cell := ⋃ (Sentence.cells <$> k).

(** How many held sentences have exactly [j] cells. *)
Definition tally (k : list Sentence.t) (j : nat) : nat :=
  length (filter (λ s, size (Sentence.cells s) = j) k).

(** A sentence with no cell left. *)
Definition vacant (s : Sentence.t) : Prop := Sentence.cells s = ∅.

#[global] Instance vacant_dec s : Decision (vacant s).
Proof. unfold vacant. apply _. Defined.

(** Lexicographic comparison of the entries [0..N] of two tables, entry [N]
    being the most significant. *)
Definition lexlt (N : nat) (f g : nat → nat) : Prop :=
  ∃ k, k ≤ N ∧ f k < g k ∧ ∀ j, k < j → j ≤ N → f j = g j.

(** Entry [N+1]: the number of covered cells; entries [0..N]: the tallies. *)
Definition weight (N : nat) (ai : MinesweeperAI.t) : nat → nat :=
  λ j, if decide (j = S N) then size (covered (MinesweeperAI.knowledge ai))
       else tally (MinesweeperAI.knowledge ai) j.

(** The sentence that [add_knowledge] appends, once its two pruning loops have
    run: the neighbours without the cells known to be safe (the revealed cell
    among them) or known to be mines. *)
Definition pruned_sentence (ai : MinesweeperAI.t) (cell : Cell) (n : Z) : Sentence.t :=
  foldl Sentence.mark_mine
        (foldl Sentence.mark_safe
               (Sentence.init (MinesweeperAI.neighbours ai cell) n)
               (elements ({[cell]} ∪ MinesweeperAI.safes ai)))
        (elements (MinesweeperAI.mines ai)).

(** ** Mine placements, hints and states of the knowledge base *)

(** A mine placement is the set [M] of the cells that hold a mine.  A hint for
    it reveals a cell that is no mine, on the board, with the number of mines
    among its neighbours (what [Minesweeper.nearby_mines] counts). *)
Definition on_board (h w : Z) (c : Cell) : Prop :=
  (0 ≤ c.1 ∧ c.1 < h)%Z ∧ (0 ≤ c.2 ∧ c.2 < w)%Z.

Definition valid_hint (h w : Z) (M : gset Cell) (hint : Cell * Z) : Prop :=
  let '(cell, n) := hint in
  on_board h w cell
  ∧ (cell ∉ M)
  ∧ n = Z.of_nat (size (list_to_set (MinesweeperAI.neighbours (MinesweeperAI.init h w) cell) ∩ M)).

(** The placement that a board stands for: its cells that read [True]. *)
Definition mine_set (g : Minesweeper.t) : gset Cell :=
  list_to_set
    (filter (λ c : Cell, Minesweeper.board_at g c.1 c.2 = true)
            (i ← range 0 (Minesweeper.height g);
             j ← range 0 (Minesweeper.width g); [(i, j)])).

(** Everything the knowledge base holds is true of the placement [M]. *)
Definition true_of (M : gset Cell) (s : Sentence.t) : Prop :=
  Sentence.count s = Z.of_nat (size (Sentence.cells s ∩ M)).

Definition sound (M : gset Cell) (ai : MinesweeperAI.t) : Prop :=
  MinesweeperAI.mines ai ⊆ M
  ∧ MinesweeperAI.safes ai ## M
  ∧ Forall (true_of M) (MinesweeperAI.knowledge ai).

(** No held sentence mentions a cell whose status is settled. *)
Definition pruned (ai : MinesweeperAI.t) : Prop :=
  Forall (λ s, Sentence.cells s ## MinesweeperAI.mines ai ∪ MinesweeperAI.safes ai)
         (MinesweeperAI.knowledge ai).

(** The states a game can be in: those that the public operations produce
    from a fresh object. *)
Inductive reachable : MinesweeperAI.t → Prop :=
| reachable_init h w : reachable (MinesweeperAI.init h w)
| reachable_mark_mine ai cell :
    reachable ai → reachable (MinesweeperAI.mark_mine ai cell)
| reachable_mark_safe ai cell :
    reachable ai → reachable (MinesweeperAI.mark_safe ai cell)
| reachable_add_knowledge ai fuel cell n ai' :
    reachable ai → MinesweeperAI.add_knowledge fuel ai cell n = Returns ai' →
    reachable ai'.

(** What a property of the knowledge base must survive to hold when the loop
    is left: the marking of what a held sentence knows, the removal of
    sentences, and the arrival of the differences of the second half. *)
Record carried (P : MinesweeperAI.t → Prop) : Prop := {
  carried_mark a s :
    P a → s ∈ MinesweeperAI.knowledge a →
    P (MinesweeperAI.mark_known a (elements (Sentence.known_safes s))
                                  (elements (Sentence.known_mines s)));
  carried_drop a k :
    P a → k `sublist_of` MinesweeperAI.knowledge a → P (MinesweeperAI.set_knowledge a k);
  carried_extend a :
    P a →
    P (MinesweeperAI.set_knowledge a
         (MinesweeperAI.knowledge a
          ++ (MinesweeperAI.difference
                <$> MinesweeperAI.subset_pairs (MinesweeperAI.knowledge a))))
}.

(** A sentence that neither rule of the first half of a pass resolves. *)
Definition undecided (s : Sentence.t) : Prop :=
  Sentence.cells s ≠ ∅
  ∧ Sentence.count s ≠ 0%Z
  ∧ Sentence.count s ≠ Z.of_nat (size (Sentence.cells s)).

(** Everything the knowledge base mentions lies within a given set of cells. *)
Definition within (B : Cell → Prop) (a : MinesweeperAI.t) : Prop :=
  ∀ c, c ∈ MinesweeperAI.safes a ∪ MinesweeperAI.mines a
           ∪ covered (MinesweeperAI.knowledge a) → B c.

(** A cell settled both ways has been played, and what has been played is
    settled as safe. *)
Definition tidy (a : MinesweeperAI.t) : Prop :=
  pruned a
  ∧ MinesweeperAI.safes a ∩ MinesweeperAI.mines a ⊆ MinesweeperAI.moves_made a
  ∧ MinesweeperAI.moves_made a ⊆ MinesweeperAI.safes a.

(** A board as the constructor builds them: [height] rows of [width] cells. *)
Definition rectangular (g : Minesweeper.t) : Prop :=
  length (Minesweeper.board g) = Z.to_nat (Minesweeper.height g)
  ∧ Forall (λ row, length row = Z.to_nat (Minesweeper.width g)) (Minesweeper.board g).

(** * Proofs *)

Section lexicographic.

Lemma lexlt_wf N : well_founded (lexlt N).
Proof.
  induction N as [|N IHN].
  - apply (well_founded_lt_compat _ (λ f, f 0)).
    intros f g (k & Hk & Hlt & _). by replace k with 0 in Hlt by lia.
  - intros f. remember (f (S N)) as m eqn:Hm.
    revert f Hm. induction m as [m IHm] using lt_wf_ind.
    intros f Hm. pose proof (IHN f) as Hacc. revert Hm.
    induction Hacc as [f _ IHin]. intros Hm.
    constructor. intros g (k & Hk & Hlt & Heq).
    destruct (decide (k = S N)) as [->|Hne].
    + apply (IHm (g (S N))); [lia | done].
    + apply IHin.
      * exists k. split_and!; [lia | done | intros j ? ?; apply Heq; lia].
      * rewrite Heq; [done | lia | lia].
Qed.

End lexicographic.

(** ** Sentences *)

Section sentence_facts.
Implicit Types (s o : Sentence.t) (c : Cell).

Lemma Sentence_eq_true s o : Sentence.eq s o = true ↔ s = o.
Proof.
  unfold Sentence.eq. rewrite andb_true_iff, !bool_decide_eq_true.
  destruct s, o; simpl. split; [intros [-> ->]; done | intros [= -> ->]; done].
Qed.

Lemma Sentence_eq_false s o : Sentence.eq s o = false ↔ s ≠ o.
Proof. rewrite <-Sentence_eq_true. by destruct (Sentence.eq s o). Qed.

Lemma cells_mark_safe s c :
  Sentence.cells (Sentence.mark_safe s c) = Sentence.cells s ∖ {[c]}.
Proof. unfold Sentence.mark_safe. case_bool_decide; simpl; set_solver. Qed.

Lemma cells_mark_mine s c :
  Sentence.cells (Sentence.mark_mine s c) = Sentence.cells s ∖ {[c]}.
Proof. unfold Sentence.mark_mine. case_bool_decide; simpl; set_solver. Qed.

Lemma count_mark_safe s c : Sentence.count (Sentence.mark_safe s c) = Sentence.count s.
Proof. unfold Sentence.mark_safe. by case_bool_decide. Qed.

Lemma mark_safe_absent s c : c ∉ Sentence.cells s → Sentence.mark_safe s c = s.
Proof. intros Hc. unfold Sentence.mark_safe. by case_bool_decide. Qed.

Lemma mark_mine_absent s c : c ∉ Sentence.cells s → Sentence.mark_mine s c = s.
Proof. intros Hc. unfold Sentence.mark_mine. by case_bool_decide. Qed.

(** At most one of the two known sets is inhabited. *)
Lemma known_safes_known_mines s :
  Sentence.known_safes s ≠ ∅ → Sentence.known_mines s = ∅.
Proof.
  unfold Sentence.known_safes, Sentence.known_mines.
  repeat case_bool_decide; try done. intros Hne.
  assert (size (Sentence.cells s) = 0) as Hsz by lia.
  apply size_empty_iff in Hsz. by apply leibniz_equiv in Hsz.
Qed.

Lemma known_safes_subseteq s : Sentence.known_safes s ⊆ Sentence.cells s.
Proof. unfold Sentence.known_safes. case_bool_decide; set_solver. Qed.

Lemma known_mines_subseteq s : Sentence.known_mines s ⊆ Sentence.cells s.
Proof. unfold Sentence.known_mines. case_bool_decide; set_solver. Qed.

End sentence_facts.

(** ** Lists *)

Section list_facts.
Context {A B : Type}.

Lemma sublist_filter_mono (P : A → Prop) `{!∀ x, Decision (P x)} (l1 l2 : list A) :
  l1 `sublist_of` l2 → filter P l1 `sublist_of` filter P l2.
Proof.
  induction 1 as [|x l1 l2 _ IH|x l1 l2 _ IH]; [done| |].
  - rewrite !filter_cons. destruct (decide (P x)); [by constructor | done].
  - rewrite filter_cons. destruct (decide (P x)); [by constructor | done].
Qed.

Lemma sublist_omap (f : A → option B) (l1 l2 : list A) :
  l1 `sublist_of` l2 → omap f l1 `sublist_of` omap f l2.
Proof.
  induction 1 as [|x l1 l2 _ IH|x l1 l2 _ IH]; simpl; [done| |].
  - destruct (f x); [by constructor | done].
  - destruct (f x); [by constructor | done].
Qed.

(** Reading a list position by position gives the list back. *)
Lemma omap_lookup_seq (l : list A) : omap (λ i, l !! i) (seq 0 (length l)) = l.
Proof.
  induction l as [|x l IH] using rev_ind; [done|].
  rewrite length_app. simpl. rewrite Nat.add_1_r, seq_S, omap_app. simpl.
  rewrite list_lookup_middle by done. simpl. f_equal.
  rewrite <-IH at 2. apply list_omap_ext.
  apply Forall2_same_length_lookup_2; [done|].
  intros i a b Ha Hb. assert (a = b) as <- by congruence.
  apply lookup_seq in Ha as [-> Hlt]. by rewrite lookup_app_l.
Qed.

End list_facts.

(** ** Removal from the list of sentences *)

Section removal.
Implicit Types (x s : Sentence.t) (l k q : list Sentence.t).

Lemma list_remove_Some x l l' :
  list_remove x l = Some l' →
  ∃ l1 l2, l = l1 ++ x :: l2 ∧ l' = l1 ++ l2 ∧ x ∉ l1.
Proof.
  revert l'. induction l as [|y l IH]; intros l' Hr; simpl in Hr; [done|].
  destruct (Sentence.eq y x) eqn:E.
  - apply Sentence_eq_true in E as ->. injection Hr as <-.
    exists [], l. split_and!; [done | done | apply not_elem_of_nil].
  - apply Sentence_eq_false in E.
    destruct (list_remove x l) as [l0|] eqn:Hl0; [|done]. injection Hr as <-.
    destruct (IH _ eq_refl) as (l1 & l2 & -> & -> & Hnin).
    exists (y :: l1), l2. split_and!; [done | done |].
    rewrite not_elem_of_cons. split; [congruence | done].
Qed.

Lemma list_remove_None x l : list_remove x l = None ↔ x ∉ l.
Proof.
  induction l as [|y l IH]; simpl.
  - split; [intros _; apply not_elem_of_nil | done].
  - destruct (Sentence.eq y x) eqn:E.
    + apply Sentence_eq_true in E as ->. split; [done | intros []; left].
    + apply Sentence_eq_false in E. rewrite not_elem_of_cons, <-IH.
      destruct (list_remove x l); simpl; [|by split; [split; [congruence|] |]].
      split; [done | by intros [_ ?]].
Qed.

Lemma list_remove_is_Some x l : x ∈ l → is_Some (list_remove x l).
Proof.
  intros Hin. destruct (list_remove x l) eqn:E; [by eexists|].
  by apply list_remove_None in E.
Qed.

Lemma list_remove_sublist x l l' : list_remove x l = Some l' → l' `sublist_of` l.
Proof.
  intros (l1 & l2 & -> & -> & _)%list_remove_Some.
  apply sublist_app; [done | by apply sublist_cons].
Qed.

Lemma list_remove_Permutation x l l' : list_remove x l = Some l' → l ≡ₚ x :: l'.
Proof.
  intros (l1 & l2 & -> & -> & _)%list_remove_Some.
  by rewrite Permutation_middle.
Qed.

(** Removing a sentence leaves the entries that a predicate it fails selects. *)
Lemma list_remove_filter (P : Sentence.t → Prop) `{!∀ s, Decision (P s)} x l l' :
  list_remove x l = Some l' → ¬ P x → filter P l' = filter P l.
Proof.
  intros (l1 & l2 & -> & -> & _)%list_remove_Some Hx.
  by rewrite !filter_app, filter_cons_False.
Qed.

Lemma list_remove_filter_length (P : Sentence.t → Prop) `{!∀ s, Decision (P s)} x l l' :
  list_remove x l = Some l' → P x →
  length (filter P l) = S (length (filter P l')).
Proof.
  intros (l1 & l2 & -> & -> & _)%list_remove_Some Hx.
  rewrite !filter_app, filter_cons_True, !length_app by done. simpl. lia.
Qed.

Lemma list_remove_other x y l l' :
  list_remove x l = Some l' → y ≠ x → y ∈ l → y ∈ l'.
Proof.
  intros (l1 & l2 & -> & -> & _)%list_remove_Some Hne.
  rewrite !elem_of_app, elem_of_cons. naive_solver.
Qed.

(** *** The loop that raises *)

Lemma remove_each_submseteq q l : q ⊆+ l → ∃ l', remove_each q l = Returns l'.
Proof.
  revert l. induction q as [|s q IH]; intros l Hq; simpl; [by eexists|].
  assert (s ∈ l) as Hin.
  { eapply elem_of_submseteq; [|done]. left. }
  destruct (list_remove_is_Some _ _ Hin) as [l' Hl']. rewrite Hl'.
  apply IH. apply list_remove_Permutation in Hl'. rewrite Hl' in Hq.
  by apply (submseteq_app_inv_l _ _ [s]).
Qed.

Lemma remove_each_sublist q l l' : remove_each q l = Returns l' → l' `sublist_of` l.
Proof.
  revert l. induction q as [|s q IH]; intros l Hr; simpl in Hr.
  - by injection Hr as <-.
  - destruct (list_remove s l) as [l0|] eqn:E; [|done].
    etrans; [by apply IH | by eapply list_remove_sublist].
Qed.

Lemma remove_each_nil l : remove_each [] l = Returns l.
Proof. done. Qed.

(** Removing, in order, every entry that satisfies [P] leaves the others. *)
Lemma remove_each_filter (P : Sentence.t → Prop) `{!∀ s, Decision (P s)} pre l :
  Forall (λ s, ¬ P s) pre →
  remove_each (filter P l) (pre ++ l) = Returns (pre ++ filter (λ s, ¬ P s) l).
Proof.
  revert pre. induction l as [|x l IH]; intros pre Hpre; [done|].
  destruct (decide (P x)) as [Hx|Hx].
  - rewrite filter_cons_True by done. rewrite (filter_cons_False (λ s, ¬ P s)) by tauto.
    simpl. assert (list_remove x (pre ++ x :: l) = Some (pre ++ l)) as ->; [|by apply IH].
    clear IH. induction pre as [|y pre IHp]; simpl.
    + by rewrite (proj2 (Sentence_eq_true x x)).
    + inversion_clear Hpre as [|?? Hy Hpre'].
      rewrite (proj2 (Sentence_eq_false y x)) by congruence.
      by rewrite IHp.
  - rewrite filter_cons_False by done. rewrite (filter_cons_True (λ s, ¬ P s)) by done.
    rewrite (cons_middle x pre l), (cons_middle x pre), !(assoc_L (++)).
    apply IH. apply Forall_app. split; [done | by constructor].
Qed.

(** *** The loop that ignores failures *)

Lemma remove_each_quiet_sublist q l : remove_each_quiet q l `sublist_of` l.
Proof.
  revert l. induction q as [|s q IH]; intros l; simpl; [done|].
  etrans; [apply IH|]. destruct (list_remove s l) eqn:E; simpl; [|done].
  by eapply list_remove_sublist.
Qed.

Lemma remove_each_quiet_filter (P : Sentence.t → Prop) `{!∀ s, Decision (P s)} q l :
  Forall (λ s, ¬ P s) q → filter P (remove_each_quiet q l) = filter P l.
Proof.
  revert l. induction q as [|s q IH]; intros l Hq; simpl; [done|].
  inversion_clear Hq as [|?? Hs Hq']. rewrite IH by done.
  destruct (list_remove s l) eqn:E; simpl; [|done].
  by eapply list_remove_filter.
Qed.

Lemma remove_each_quiet_filter_le (P : Sentence.t → Prop) `{!∀ s, Decision (P s)} q l :
  length (filter P (remove_each_quiet q l)) ≤ length (filter P l).
Proof.
  apply sublist_length, sublist_filter_mono, remove_each_quiet_sublist.
Qed.

Lemma remove_each_quiet_filter_lt (P : Sentence.t → Prop) `{!∀ s, Decision (P s)} q l x :
  x ∈ q → x ∈ l → P x →
  length (filter P (remove_each_quiet q l)) < length (filter P l).
Proof.
  revert l. induction q as [|s q IH]; intros l Hq Hl Hx; simpl.
  { by apply elem_of_nil in Hq. }
  destruct (decide (s = x)) as [->|Hne].
  - destruct (list_remove_is_Some _ _ Hl) as [l' Hl']. rewrite Hl'. simpl.
    rewrite (list_remove_filter_length P x l l') by done.
    pose proof (remove_each_quiet_filter_le P q l'). lia.
  - apply elem_of_cons in Hq as [?|Hq]; [congruence|].
    destruct (list_remove s l) as [l'|] eqn:E; simpl; [|by apply IH].
    eapply Nat.lt_le_trans.
    + apply IH; [done | by eapply list_remove_other | done].
    + apply sublist_length, sublist_filter_mono. by eapply list_remove_sublist.
Qed.

(** An entry that disappears was asked for. *)
Lemma remove_each_quiet_lost q l x : x ∈ l → x ∉ remove_each_quiet q l → x ∈ q.
Proof.
  revert l. induction q as [|s q IH]; intros l Hl Hx; simpl in Hx; [done|].
  destruct (decide (s = x)) as [->|Hne]; [left|]. right.
  apply (IH (default l (list_remove s l))); [|done].
  destruct (list_remove s l) eqn:E; simpl; [|done].
  by eapply list_remove_other.
Qed.

End removal.

(** ** Marking cells in the knowledge base *)

Section marking.
Import MinesweeperAI.
Implicit Types (ai : MinesweeperAI.t) (s : Sentence.t) (c : Cell) (k : list Sentence.t).

Lemma set_knowledge_id ai : set_knowledge ai (knowledge ai) = ai.
Proof. by destruct ai. Qed.

Lemma elem_of_covered c k : c ∈ covered k ↔ ∃ s, s ∈ k ∧ c ∈ Sentence.cells s.
Proof.
  unfold covered. rewrite elem_of_union_list. split.
  - intros (X & (s & -> & Hs)%list_elem_of_fmap & Hc). eauto.
  - intros (s & Hs & Hc). exists (Sentence.cells s). split; [|done].
    apply list_elem_of_fmap. eauto.
Qed.

Lemma covered_sublist k1 k2 : k1 `sublist_of` k2 → covered k1 ⊆ covered k2.
Proof.
  intros Hsub c (s & Hs & Hc)%elem_of_covered. apply elem_of_covered.
  exists s. split; [by eapply elem_of_sublist | done].
Qed.

Lemma covered_mark_safe c k :
  covered ((λ s, Sentence.mark_safe s c) <$> k) = covered k ∖ {[c]}.
Proof.
  apply set_eq. intros x. rewrite elem_of_difference, !elem_of_covered. split.
  - intros (s' & (s & -> & Hs)%list_elem_of_fmap & Hx).
    rewrite cells_mark_safe in Hx. set_solver.
  - intros [(s & Hs & Hx) Hne]. exists (Sentence.mark_safe s c). split.
    + apply list_elem_of_fmap. eauto.
    + rewrite cells_mark_safe. set_solver.
Qed.

Lemma covered_mark_mine c k :
  covered ((λ s, Sentence.mark_mine s c) <$> k) = covered k ∖ {[c]}.
Proof.
  apply set_eq. intros x. rewrite elem_of_difference, !elem_of_covered. split.
  - intros (s' & (s & -> & Hs)%list_elem_of_fmap & Hx).
    rewrite cells_mark_mine in Hx. set_solver.
  - intros [(s & Hs & Hx) Hne]. exists (Sentence.mark_mine s c). split.
    + apply list_elem_of_fmap. eauto.
    + rewrite cells_mark_mine. set_solver.
Qed.

Lemma covered_foldl_mark_safe ai cs :
  covered (knowledge (foldl mark_safe ai cs)) = covered (knowledge ai) ∖ list_to_set cs.
Proof.
  revert ai. induction cs as [|c cs IH]; intros ai; simpl; [set_solver|].
  rewrite IH. simpl. rewrite covered_mark_safe. set_solver.
Qed.

Lemma covered_foldl_mark_mine ai cs :
  covered (knowledge (foldl mark_mine ai cs)) = covered (knowledge ai) ∖ list_to_set cs.
Proof.
  revert ai. induction cs as [|c cs IH]; intros ai; simpl; [set_solver|].
  rewrite IH. simpl. rewrite covered_mark_mine. set_solver.
Qed.

Lemma length_foldl_mark_safe ai cs :
  length (knowledge (foldl mark_safe ai cs)) = length (knowledge ai).
Proof.
  revert ai. induction cs as [|c cs IH]; intros ai; simpl; [done|].
  rewrite IH. simpl. by rewrite length_fmap.
Qed.

Lemma length_foldl_mark_mine ai cs :
  length (knowledge (foldl mark_mine ai cs)) = length (knowledge ai).
Proof.
  revert ai. induction cs as [|c cs IH]; intros ai; simpl; [done|].
  rewrite IH. simpl. by rewrite length_fmap.
Qed.

Lemma covered_mark_known ai s :
  covered (knowledge (mark_known ai (elements (Sentence.known_safes s))
                                    (elements (Sentence.known_mines s))))
  = covered (knowledge ai) ∖ (Sentence.known_safes s ∪ Sentence.known_mines s).
Proof.
  unfold mark_known.
  rewrite covered_foldl_mark_mine, covered_foldl_mark_safe, !list_to_set_elements_L.
  set_solver.
Qed.

Lemma length_mark_known ai safes mines :
  length (knowledge (mark_known ai safes mines)) = length (knowledge ai).
Proof. unfold mark_known. by rewrite length_foldl_mark_mine, length_foldl_mark_safe. Qed.

(** Nothing known: nothing is marked. *)
Lemma mark_known_nothing ai : mark_known ai [] [] = ai.
Proof. done. Qed.

End marking.

(** ** The first half of a pass: resolved sentences *)

Section resolution.
Import MinesweeperAI.
Implicit Types (ai : MinesweeperAI.t) (s : Sentence.t) (rs : list nat) (d : bool).

Lemma vacant_size s : vacant s ↔ size (Sentence.cells s) = 0.
Proof.
  unfold vacant. rewrite size_empty_iff. split; [by intros -> | apply leibniz_equiv].
Qed.

Lemma examine_unknown ai rs d i s :
  knowledge ai !! i = Some s →
  Sentence.known_safes s ∪ Sentence.known_mines s = ∅ →
  examine (ai, rs, d) i
  = if bool_decide (vacant s) then (ai, rs ++ [i], false) else (ai, rs, d).
Proof.
  intros Hi Hk. unfold examine. rewrite Hi.
  assert (Sentence.known_safes s = ∅) as -> by set_solver.
  assert (Sentence.known_mines s = ∅) as -> by set_solver.
  rewrite elements_empty, mark_known_nothing, Hi. simpl.
  by rewrite (bool_decide_ext _ _ (vacant_size s)).
Qed.

Lemma examine_known ai rs d i s :
  knowledge ai !! i = Some s →
  Sentence.known_safes s ∪ Sentence.known_mines s ≠ ∅ →
  examine (ai, rs, d) i
  = (mark_known ai (elements (Sentence.known_safes s)) (elements (Sentence.known_mines s)),
     rs ++ [i], false).
Proof.
  intros Hi Hk. unfold examine. rewrite Hi.
  destruct (decide (Sentence.known_safes s = ∅)) as [Hs|Hs].
  - assert (elements (Sentence.known_mines s) ≠ []) as Hm.
    { intros Hm%elements_empty_inv%leibniz_equiv. set_solver. }
    rewrite (bool_decide_eq_true_2 (elements (Sentence.known_mines s) ≠ [])) by done.
    by rewrite orb_true_r.
  - assert (elements (Sentence.known_safes s) ≠ []) as Hs'.
    { intros Hs'%elements_empty_inv%leibniz_equiv. done. }
    by rewrite (bool_decide_eq_true_2 (elements (Sentence.known_safes s) ≠ [])).
Qed.

(** The object after one step: either untouched or marked with what the
    examined sentence knows. *)
Lemma examine_fst ai rs d i :
  (examine (ai, rs, d) i).1.1
  = match knowledge ai !! i with
    | Some s => mark_known ai (elements (Sentence.known_safes s))
                              (elements (Sentence.known_mines s))
    | None => ai
    end.
Proof.
  unfold examine. destruct (knowledge ai !! i) as [s|]; [|done].
  by destruct (_ || _).
Qed.

(** A property kept by every marking is kept by the whole [for] loop. *)
Lemma foldl_examine_preserves (P : MinesweeperAI.t → Prop) :
  (∀ a s, P a → s ∈ knowledge a →
          P (mark_known a (elements (Sentence.known_safes s))
                          (elements (Sentence.known_mines s)))) →
  ∀ idxs st, P st.1.1 → P (foldl examine st idxs).1.1.
Proof.
  intros Hstep idxs. induction idxs as [|i idxs IH]; intros [[a rs] d] Ha; [done|].
  cbn [foldl]. apply IH. rewrite examine_fst. simpl in Ha.
  destruct (knowledge a !! i) as [s|] eqn:Hi; [|done].
  apply Hstep; [done|]. by eapply list_elem_of_lookup_2.
Qed.

Lemma foldl_examine_length idxs st :
  length (knowledge (foldl examine st idxs).1.1) = length (knowledge st.1.1).
Proof.
  apply (foldl_examine_preserves (λ a, length (knowledge a) = length (knowledge st.1.1)));
    [|done].
  intros a s <- _. apply length_mark_known.
Qed.

Lemma foldl_examine_covered idxs st :
  covered (knowledge (foldl examine st idxs).1.1) ⊆ covered (knowledge st.1.1).
Proof.
  apply (foldl_examine_preserves (λ a, covered (knowledge a) ⊆ covered (knowledge st.1.1)));
    [|done].
  intros a s Ha _. rewrite covered_mark_known. set_solver.
Qed.

(** Either nothing has been marked so far, and the queue holds the positions
    of the vacant sentences met, or a covered cell has been marked. *)
Lemma resolve_loop ai m :
  m ≤ length (knowledge ai) →
  ∃ ai' rs d,
    foldl examine (ai, [], true) (seq 0 m) = (ai', rs, d)
    ∧ rs `sublist_of` seq 0 m
    ∧ ((ai' = ai
        ∧ omap (λ i, knowledge ai !! i) rs = filter vacant (take m (knowledge ai))
        ∧ d = bool_decide (filter vacant (take m (knowledge ai)) = []))
       ∨ (covered (knowledge ai') ⊂ covered (knowledge ai) ∧ d = false)).
Proof.
  induction m as [|m IH]; intros Hm.
  { exists ai, [], true. split_and!; [done | done | left; by rewrite take_0]. }
  destruct IH as (ai' & rs & d & Hfold & Hsub & Hcase); [lia|].
  rewrite seq_S, foldl_app, Hfold. cbn [foldl Nat.add].
  assert (rs ++ [m] `sublist_of` seq 0 m ++ [m]) as Hsub1 by by apply sublist_app.
  assert (rs `sublist_of` seq 0 m ++ [m]) as Hsub2 by by apply sublist_inserts_r.
  destruct Hcase as [(-> & Hq & Hd)|[Hcov ->]].
  - destruct (lookup_lt_is_Some_2 (knowledge ai) m) as [s Hs]; [lia|].
    rewrite (take_S_r _ _ _ Hs), filter_app.
    destruct (decide (Sentence.known_safes s ∪ Sentence.known_mines s = ∅)) as [Hk|Hk].
    + rewrite (examine_unknown _ _ _ _ _ Hs Hk).
      destruct (decide (vacant s)) as [Hv|Hv].
      * rewrite (bool_decide_eq_true_2 _ Hv).
        eexists _, _, _. split_and!; [done | done | left].
        rewrite omap_app, Hq. simpl. rewrite Hs. simpl.
        rewrite (filter_cons_True _ _ _ Hv), filter_nil.
        split_and!; [done | done |].
        symmetry. apply bool_decide_eq_false_2. by intros [_ ?]%app_eq_nil.
      * rewrite (bool_decide_eq_false_2 _ Hv).
        eexists _, _, _. split_and!; [done | done | left].
        by rewrite (filter_cons_False _ _ _ Hv), filter_nil, app_nil_r.
    + rewrite (examine_known _ _ _ _ _ Hs Hk).
      eexists _, _, _. split_and!; [done | done | right]. split; [|done].
      rewrite covered_mark_known.
      assert (Sentence.cells s ⊆ covered (knowledge ai)) as Hin.
      { intros c Hc. apply elem_of_covered. exists s.
        split; [by eapply list_elem_of_lookup_2 | done]. }
      pose proof (known_safes_subseteq s). pose proof (known_mines_subseteq s).
      apply set_choose_L in Hk as [c Hc]. set_solver.
  - pose proof (examine_fst ai' rs false m) as Hfst.
    pose proof (foldl_examine_covered [m] (ai', rs, false)) as Hcov'. cbn [foldl fst] in Hcov'.
    destruct (examine (ai', rs, false) m) as [[ai'' rs''] d''] eqn:Hex.
    assert (d'' = false ∧ (rs'' = rs ∨ rs'' = rs ++ [m])) as [-> Hrs].
    { unfold examine in Hex. destruct (knowledge ai' !! m); [|naive_solver].
      destruct (_ || _); naive_solver. }
    eexists _, _, _. split_and!; [done | by destruct Hrs as [-> | ->] | right].
    split; [|done]. simpl in Hcov'. destruct Hcov as [Hin Hnin].
    split; [by etrans | intros Hback; apply Hnin; by etrans].
Qed.

(** What [resolve] returns: it never raises. *)
Lemma resolve_cases ai :
  ∃ ai1 d,
    resolve ai = Returns (ai1, d)
    ∧ ((ai1 = set_knowledge ai (filter (λ s, ¬ vacant s) (knowledge ai))
        ∧ d = bool_decide (filter vacant (knowledge ai) = []))
       ∨ (covered (knowledge ai1) ⊂ covered (knowledge ai) ∧ d = false)).
Proof.
  destruct (resolve_loop ai (length (knowledge ai))) as (ai' & rs & d & Hfold & Hsub & Hcase);
    [done|].
  unfold resolve. rewrite Hfold.
  destruct Hcase as [(-> & Hq & ->)|[Hcov ->]].
  - rewrite firstn_all in Hq. rewrite firstn_all, Hq.
    pose proof (remove_each_filter vacant [] (knowledge ai)) as Hr. simpl in Hr.
    rewrite Hr by done. simpl. eexists _, _. split; [done | by left].
  - pose proof (foldl_examine_length (seq 0 (length (knowledge ai))) (ai, [], true)) as Hlen.
    rewrite Hfold in Hlen. simpl in Hlen.
    destruct (remove_each_submseteq
                (omap (λ i, knowledge ai' !! i) rs) (knowledge ai')) as [k Hk].
    { apply sublist_submseteq. rewrite <-Hlen in Hsub.
      apply (sublist_omap (λ i, knowledge ai' !! i)) in Hsub.
      by rewrite omap_lookup_seq in Hsub. }
    rewrite Hk. simpl. eexists _, _. split; [done | right]. split; [|done].
    simpl. apply remove_each_sublist, covered_sublist in Hk. set_solver.
Qed.

(** A property kept by marking and by dropping sentences is kept by [resolve]. *)
Lemma resolve_preserves (P : MinesweeperAI.t → Prop) ai ai1 d :
  (∀ a s, P a → s ∈ knowledge a →
          P (mark_known a (elements (Sentence.known_safes s))
                          (elements (Sentence.known_mines s)))) →
  (∀ a k, P a → k `sublist_of` knowledge a → P (set_knowledge a k)) →
  P ai → resolve ai = Returns (ai1, d) → P ai1.
Proof.
  intros Hmark Hdrop Hai. unfold resolve.
  pose proof (foldl_examine_preserves P Hmark (seq 0 (length (knowledge ai)))
                (ai, [], true) Hai) as HP.
  destruct (foldl examine _ _) as [[ai' rs] d']. simpl in HP.
  destruct (remove_each _ _) as [k| |] eqn:Hk; simpl; [|done|done].
  intros [= <- <-]. apply Hdrop; [done|]. by eapply remove_each_sublist.
Qed.

End resolution.

(** ** The second half of a pass: sentences that contain another *)

Section subsumption.
Import MinesweeperAI.
Implicit Types (ai : MinesweeperAI.t) (a b s : Sentence.t) (k : list Sentence.t).

Lemma elem_of_subset_pairs k a b :
  (a, b) ∈ subset_pairs k ↔ a ∈ k ∧ b ∈ k ∧ Sentence.cells a ⊂ Sentence.cells b.
Proof.
  unfold subset_pairs. rewrite list_elem_of_bind. split.
  - intros (s & (s2 & Hin & Hs2)%list_elem_of_bind & Hs).
    case_bool_decide as Heq; [by apply elem_of_nil in Hin|].
    case_bool_decide as Hsub; [|by apply elem_of_nil in Hin].
    apply list_elem_of_singleton in Hin as [= -> ->].
    split_and!; [done | done |]. split; [done|]. intros Hsub'. apply Heq. set_solver.
  - intros (Ha & Hb & Hsub & Hnsub). exists a. split; [|done].
    apply list_elem_of_bind. exists b. split; [|done].
    rewrite bool_decide_eq_false_2, bool_decide_eq_true_2 by set_solver.
    apply list_elem_of_singleton. done.
Qed.

Lemma subset_pairs_inv k p :
  p ∈ subset_pairs k → p.1 ∈ k ∧ p.2 ∈ k ∧ Sentence.cells p.1 ⊂ Sentence.cells p.2.
Proof. destruct p as [a b]. apply elem_of_subset_pairs. Qed.

Lemma cells_difference p :
  Sentence.cells (difference p) = Sentence.cells p.2 ∖ Sentence.cells p.1.
Proof. unfold difference. simpl. by rewrite list_to_set_elements_L. Qed.

Lemma subsume_list_sublist k :
  subsume_list k `sublist_of` k ++ (difference <$> subset_pairs k).
Proof. apply remove_each_quiet_sublist. Qed.

Lemma subsume_list_no_pairs k : subset_pairs k = [] → subsume_list k = k.
Proof. intros Hp. unfold subsume_list. rewrite Hp. simpl. apply app_nil_r. Qed.

Lemma covered_subsume_list k : covered (subsume_list k) ⊆ covered k.
Proof.
  intros c (s & Hs & Hc)%elem_of_covered.
  pose proof (elem_of_sublist _ _ _ Hs (subsume_list_sublist k)) as Hin.
  apply elem_of_app in Hin as [Hin|(p & -> & Hp)%list_elem_of_fmap].
  - apply elem_of_covered. eauto.
  - apply subset_pairs_inv in Hp as (_ & Hb & _). rewrite cells_difference in Hc.
    apply elem_of_covered. exists p.2. split; [done | set_solver].
Qed.

Lemma filter_none {A} (P : A → Prop) `{!∀ x, Decision (P x)} (l : list A) :
  Forall (λ x, ¬ P x) l → filter P l = [].
Proof.
  induction 1 as [|x l Hx _ IH]; [done|]. by rewrite filter_cons_False.
Qed.

Lemma tally_app k1 k2 j : tally (k1 ++ k2) j = tally k1 j + tally k2 j.
Proof. unfold tally. by rewrite filter_app, length_app. Qed.

Lemma tally_elem k j : 0 < tally k j → ∃ s, s ∈ k ∧ size (Sentence.cells s) = j.
Proof.
  unfold tally. destruct (filter _ k) as [|s l] eqn:Hf; simpl; [lia|]. intros _.
  assert (s ∈ filter (λ s, size (Sentence.cells s) = j) k) as Hs by (rewrite Hf; left).
  apply list_elem_of_filter in Hs as [? ?]. eauto.
Qed.

Lemma size_cells_covered k s : s ∈ k → size (Sentence.cells s) ≤ size (covered k).
Proof.
  intros Hs. apply subseteq_size. intros c Hc. apply elem_of_covered. eauto.
Qed.

(** Without vacant sentences, the largest sentence that contains another one
    goes, and what comes in is smaller. *)
Lemma subsume_list_tally k :
  Forall (λ s, ¬ vacant s) k → subset_pairs k ≠ [] →
  ∃ m, 0 < m ∧ tally (subsume_list k) m < tally k m
       ∧ ∀ j, m < j → tally (subsume_list k) j = tally k j.
Proof.
  intros Hnv Hpairs.
  set (sizes := (λ p, size (Sentence.cells p.2)) <$> subset_pairs k).
  assert (max_list sizes ∈ sizes) as Hmax.
  { apply max_list_elem_of. unfold sizes. by destruct (subset_pairs k). }
  apply list_elem_of_fmap in Hmax as (p & Hm & Hp).
  pose proof (subset_pairs_inv _ _ Hp) as (Ha & Hb & Hsub).
  assert (∀ q, q ∈ subset_pairs k → size (Sentence.cells q.2) ≤ max_list sizes) as Hle.
  { intros q Hq. apply max_list_elem_of_le, list_elem_of_fmap. eauto. }
  assert (∀ j, max_list sizes ≤ j → tally (difference <$> subset_pairs k) j = 0) as Hnew.
  { intros j Hj. unfold tally. rewrite filter_none; [done|].
    apply Forall_forall. intros n (q & -> & Hq)%list_elem_of_fmap.
    rewrite cells_difference.
    pose proof (subset_pairs_inv _ _ Hq) as (Hqa & _ & Hqsub).
    rewrite size_difference by apply Hqsub.
    assert (size (Sentence.cells q.1) ≠ 0).
    { rewrite <-vacant_size. by eapply (proj1 (Forall_forall _ _) Hnv). }
    specialize (Hle q Hq). pose proof (subseteq_size _ _ (proj1 Hqsub)). lia. }
  exists (max_list sizes). split_and!.
  - rewrite Hm. apply subset_size in Hsub. lia.
  - unfold subsume_list. eapply Nat.lt_le_trans.
    + apply (remove_each_quiet_filter_lt
               (λ s, size (Sentence.cells s) = max_list sizes) _ _ p.2).
      * apply list_elem_of_fmap. eauto.
      * apply elem_of_app. by left.
      * done.
    + fold (tally (k ++ (difference <$> subset_pairs k)) (max_list sizes)).
      rewrite tally_app, Hnew by done. lia.
  - intros j Hj. unfold subsume_list, tally at 1.
    rewrite remove_each_quiet_filter.
    + fold (tally (k ++ (difference <$> subset_pairs k)) j).
      rewrite tally_app, Hnew by lia. lia.
    + apply Forall_forall. intros s (q & -> & Hq)%list_elem_of_fmap.
      specialize (Hle q Hq). lia.
Qed.

Lemma filter_not_vacant_id k :
  filter vacant k = [] → filter (λ s, ¬ vacant s) k = k.
Proof.
  induction k as [|s k IH]; [done|]. rewrite !filter_cons.
  destruct (decide (vacant s)) as [Hv|Hv]; [done|]. intros Hf.
  rewrite decide_True by done. by rewrite IH.
Qed.

Lemma tally_filter_not_vacant k j :
  0 < j → tally (filter (λ s, ¬ vacant s) k) j = tally k j.
Proof.
  intros Hj. unfold tally. rewrite list_filter_filter_l; [done|].
  intros s Hs Hv%vacant_size. lia.
Qed.

Lemma tally_vacant k : tally k 0 = length (filter vacant k).
Proof.
  unfold tally. f_equal. apply list_filter_iff. intros s. by rewrite vacant_size.
Qed.

(** One iteration of the loop returns.  If it leaves [done] set, nothing has
    changed; otherwise a covered cell has been marked, or the tallies have
    decreased in the lexicographic order. *)
Lemma pass_cases ai :
  ∃ ai2 d,
    pass ai = Returns (ai2, d)
    ∧ covered (knowledge ai2) ⊆ covered (knowledge ai)
    ∧ (d = true → ai2 = ai ∧ subset_pairs (knowledge ai) = []
                   ∧ filter vacant (knowledge ai) = [])
    ∧ (d = false →
       covered (knowledge ai2) ⊂ covered (knowledge ai)
       ∨ ∃ m, tally (knowledge ai2) m < tally (knowledge ai) m
              ∧ ∀ j, m < j → tally (knowledge ai2) j = tally (knowledge ai) j).
Proof.
  destruct (resolve_cases ai) as (ai1 & d1 & Hres & Hcase).
  unfold pass. rewrite Hres. simpl. eexists _, _. split; [done|].
  pose proof (covered_subsume_list (knowledge ai1)) as Hcov2.
  destruct Hcase as [[-> ->]|[Hcov ->]]; simpl in *.
  - set (k1 := filter (λ s, ¬ vacant s) (knowledge ai)) in *.
    assert (covered k1 ⊆ covered (knowledge ai)) as Hcov1
      by apply covered_sublist, sublist_filter.
    split_and!; [set_solver | |].
    + intros [Hv%bool_decide_eq_true Hp%bool_decide_eq_true]%andb_true_iff.
      unfold k1 in *. rewrite (filter_not_vacant_id _ Hv) in *.
      rewrite (subsume_list_no_pairs _ Hp). by destruct ai.
    + intros Hd. right. destruct (decide (subset_pairs k1 = [])) as [Hp|Hp].
      * rewrite (subsume_list_no_pairs _ Hp).
        rewrite (bool_decide_eq_true_2 _ Hp), andb_true_r in Hd.
        apply bool_decide_eq_false in Hd. exists 0. split.
        -- rewrite !tally_vacant. unfold k1.
           rewrite list_filter_filter, filter_none.
           ++ destruct (filter vacant (knowledge ai)); [done | simpl; lia].
           ++ apply Forall_forall. tauto.
        -- intros j Hj. by apply tally_filter_not_vacant.
      * destruct (subsume_list_tally k1) as (m & Hm & Hlt & Heq); [|done|].
        { apply Forall_forall. by intros s [? _]%list_elem_of_filter. }
        exists m. split.
        -- by rewrite <-(tally_filter_not_vacant (knowledge ai)).
        -- intros j Hj. rewrite Heq by done. apply tally_filter_not_vacant. lia.
  - split_and!; [set_solver | done | intros _; left; set_solver].
Qed.

End subsumption.

(** ** The loop *)

Section loop_facts.
Import MinesweeperAI.
Implicit Types (ai : MinesweeperAI.t).

Lemma weight_decreases N ai ai2 :
  size (covered (knowledge ai)) ≤ N →
  covered (knowledge ai2) ⊆ covered (knowledge ai) →
  (covered (knowledge ai2) ⊂ covered (knowledge ai)
   ∨ ∃ m, tally (knowledge ai2) m < tally (knowledge ai) m
          ∧ ∀ j, m < j → tally (knowledge ai2) j = tally (knowledge ai) j) →
  lexlt (S N) (weight N ai2) (weight N ai).
Proof.
  intros HN Hsub Hcase.
  assert (size (covered (knowledge ai2)) < size (covered (knowledge ai)) →
          lexlt (S N) (weight N ai2) (weight N ai)) as Htop.
  { intros Hlt. exists (S N). unfold weight. rewrite !decide_True by done.
    split_and!; [done | done | intros; lia]. }
  destruct Hcase as [Hcov|(m & Hlt & Heq)]; [by apply Htop, subset_size|].
  pose proof (subseteq_size _ _ Hsub) as Hle.
  destruct (decide (size (covered (knowledge ai2)) = size (covered (knowledge ai))))
    as [Hsz|Hsz]; [|apply Htop; lia].
  destruct (tally_elem (knowledge ai) m) as (s & Hs & Hm); [lia|].
  pose proof (size_cells_covered _ _ Hs). exists m. unfold weight.
  rewrite !(decide_False (P := m = S N)) by lia. split_and!; [lia | done |].
  intros j Hj HjN. case_decide; [done | by apply Heq].
Qed.

(** The loop stops: some number of passes is enough, and no pass raises. *)
Lemma loop_terminates ai : ∃ fuel ai', loop fuel ai = Returns ai'.
Proof.
  remember (size (covered (knowledge ai))) as N eqn:HN.
  assert (size (covered (knowledge ai)) ≤ N) as Hsz by lia. clear HN. revert Hsz.
  induction ai as [ai IH]
    using (well_founded_induction (wf_inverse_image _ _ _ (weight N) (lexlt_wf (S N)))).
  intros Hsz. destruct (pass_cases ai) as (ai2 & d & Hpass & Hcov & Htrue & Hfalse).
  destruct d.
  - exists 1, ai2. simpl. by rewrite Hpass.
  - destruct (IH ai2) as (fuel & ai' & Hloop).
    + apply weight_decreases; auto.
    + pose proof (subseteq_size _ _ Hcov). lia.
    + exists (S fuel), ai'. simpl. by rewrite Hpass.
Qed.

Lemma loop_fuel_mono fuel fuel' ai ai' :
  loop fuel ai = Returns ai' → fuel ≤ fuel' → loop fuel' ai = Returns ai'.
Proof.
  revert fuel' ai. induction fuel as [|fuel IH]; intros fuel' ai Hl Hle; [done|].
  destruct fuel' as [|fuel']; [lia|]. simpl in *.
  destruct (pass ai) as [[ai2 d]| |]; simpl in *; [|done|done].
  destruct d; [done|]. apply IH; [done | lia].
Qed.

End loop_facts.

(** ** Properties carried through [add_knowledge] *)

Section carried.
Import MinesweeperAI.
Implicit Types (ai a : MinesweeperAI.t) (P : MinesweeperAI.t → Prop).

Lemma pass_carried P ai ai2 d : carried P → P ai → pass ai = Returns (ai2, d) → P ai2.
Proof.
  intros [Hmark Hdrop Hext] Hai. unfold pass.
  destruct (resolve ai) as [[ai1 d1]| |] eqn:Hres; simpl; [|done|done].
  intros [= <- <-].
  pose proof (resolve_preserves P _ _ _ Hmark Hdrop Hai Hres) as H1.
  apply Hext, (Hdrop _ (subsume_list (knowledge ai1))) in H1.
  - by destruct ai1.
  - apply subsume_list_sublist.
Qed.

Lemma loop_carried P fuel ai ai' : carried P → P ai → loop fuel ai = Returns ai' → P ai'.
Proof.
  intros HP. revert ai. induction fuel as [|fuel IH]; intros ai Hai Hl; [done|].
  simpl in Hl. destruct (pass ai) as [[ai2 d]| |] eqn:Hpass; simpl in Hl; [|done|done].
  pose proof (pass_carried P _ _ _ HP Hai Hpass) as H2.
  destruct d; [by injection Hl as <- | by eapply IH].
Qed.

(** The loop returns in the state of its last pass, which changed nothing. *)
Lemma loop_final fuel ai ai' :
  loop fuel ai = Returns ai' →
  subset_pairs (knowledge ai') = [] ∧ filter vacant (knowledge ai') = [].
Proof.
  revert ai. induction fuel as [|fuel IH]; intros ai Hl; [done|].
  simpl in Hl. destruct (pass_cases ai) as (ai2 & d & Hpass & _ & Htrue & _).
  rewrite Hpass in Hl. simpl in Hl. destruct d; [|by eapply IH].
  injection Hl as <-. destruct Htrue as (-> & ? & ?); done.
Qed.

(** The fields the loop never assigns. *)
Lemma mark_known_moves_made a cs1 cs2 :
  moves_made (mark_known a cs1 cs2) = moves_made a
  ∧ height (mark_known a cs1 cs2) = height a
  ∧ width (mark_known a cs1 cs2) = width a.
Proof.
  unfold mark_known.
  assert (∀ cs b, moves_made (foldl mark_safe b cs) = moves_made b
                  ∧ height (foldl mark_safe b cs) = height b
                  ∧ width (foldl mark_safe b cs) = width b) as Hs.
  { intros cs. induction cs as [|c cs IH]; intros b; [done|]. simpl.
    destruct (IH (mark_safe b c)) as (-> & -> & ->). done. }
  assert (∀ cs b, moves_made (foldl mark_mine b cs) = moves_made b
                  ∧ height (foldl mark_mine b cs) = height b
                  ∧ width (foldl mark_mine b cs) = width b) as Hm.
  { intros cs. induction cs as [|c cs IH]; intros b; [done|]. simpl.
    destruct (IH (mark_mine b c)) as (-> & -> & ->). done. }
  destruct (Hm cs2 (foldl mark_safe a cs1)) as (-> & -> & ->). apply Hs.
Qed.

Lemma carried_frame (mm : gset Cell) (h w : Z) :
  carried (λ a, moves_made a = mm ∧ height a = h ∧ width a = w).
Proof.
  split.
  - intros a s (<- & <- & <-) _. apply mark_known_moves_made.
  - by intros a k.
  - by intros a.
Qed.

(** The certainty sets only grow. *)
Lemma mark_known_grows a cs1 cs2 :
  safes a ⊆ safes (mark_known a cs1 cs2) ∧ mines a ⊆ mines (mark_known a cs1 cs2).
Proof.
  unfold mark_known.
  assert (∀ cs b, MinesweeperAI.safes b ⊆ MinesweeperAI.safes (foldl mark_safe b cs)
                  ∧ MinesweeperAI.mines b ⊆ MinesweeperAI.mines (foldl mark_safe b cs))
    as Hs.
  { intros cs. induction cs as [|c cs IH]; intros b; [done|]. simpl.
    destruct (IH (mark_safe b c)) as [H1 H2]. simpl in *. set_solver. }
  assert (∀ cs b, MinesweeperAI.safes b ⊆ MinesweeperAI.safes (foldl mark_mine b cs)
                  ∧ MinesweeperAI.mines b ⊆ MinesweeperAI.mines (foldl mark_mine b cs))
    as Hm.
  { intros cs. induction cs as [|c cs IH]; intros b; [done|]. simpl.
    destruct (IH (mark_mine b c)) as [H1 H2]. simpl in *. set_solver. }
  destruct (Hm cs2 (foldl mark_safe a cs1)) as [H1 H2].
  destruct (Hs cs1 a) as [H3 H4]. set_solver.
Qed.

Lemma carried_grows (S0 M0 : gset Cell) :
  carried (λ a, S0 ⊆ MinesweeperAI.safes a ∧ M0 ⊆ MinesweeperAI.mines a).
Proof.
  split.
  - intros a s [H1 H2] _.
    destruct (mark_known_grows a (elements (Sentence.known_safes s))
                (elements (Sentence.known_mines s))) as [H3 H4].
    set_solver.
  - by intros a k.
  - by intros a.
Qed.

End carried.

(** ** The first lines of [add_knowledge] *)

Section new_sentence.
Import MinesweeperAI.
Implicit Types (ai a : MinesweeperAI.t) (s : Sentence.t) (c cell : Cell).

Lemma foldl_alter_last (f : Sentence.t → Cell → Sentence.t) a k x cs :
  knowledge a = k ++ [x] →
  foldl (λ a c, set_knowledge a (alter (λ s, f s c) (length k) (knowledge a))) a cs
  = set_knowledge a (k ++ [foldl f x cs]).
Proof.
  revert a x. induction cs as [|c cs IH]; intros a x Hk; simpl.
  - rewrite <-Hk. by destruct a.
  - rewrite (IH _ (f x c)); [done|]. simpl. rewrite Hk.
    by rewrite <-(Nat.add_0_r (length k)), alter_app_r.
Qed.

Lemma add_sentence_spec ai cell n :
  add_sentence ai cell n
  = {| height := height ai; width := width ai;
       moves_made := {[cell]} ∪ moves_made ai;
       mines := mines ai; safes := {[cell]} ∪ safes ai;
       knowledge := ((λ s, Sentence.mark_safe s cell) <$> knowledge ai)
                    ++ [pruned_sentence ai cell n] |}.
Proof.
  unfold add_sentence. cbn [mark_safe knowledge safes mines height width moves_made].
  set (k := (λ s, Sentence.mark_safe s cell) <$> knowledge ai).
  set (new := Sentence.init _ n).
  rewrite (foldl_alter_last Sentence.mark_safe _ k new) by done.
  cbn [set_knowledge knowledge safes mines height width moves_made].
  rewrite (foldl_alter_last Sentence.mark_mine _ k _) by done.
  done.
Qed.

Lemma cells_foldl_mark_safe s cs :
  Sentence.cells (foldl Sentence.mark_safe s cs) = Sentence.cells s ∖ list_to_set cs.
Proof.
  revert s. induction cs as [|c cs IH]; intros s; simpl; [set_solver|].
  rewrite IH, cells_mark_safe. set_solver.
Qed.

Lemma cells_foldl_mark_mine s cs :
  Sentence.cells (foldl Sentence.mark_mine s cs) = Sentence.cells s ∖ list_to_set cs.
Proof.
  revert s. induction cs as [|c cs IH]; intros s; simpl; [set_solver|].
  rewrite IH, cells_mark_mine. set_solver.
Qed.

Lemma cells_pruned_sentence ai cell n :
  Sentence.cells (pruned_sentence ai cell n)
  = list_to_set (neighbours ai cell) ∖ ({[cell]} ∪ safes ai) ∖ mines ai.
Proof.
  unfold pruned_sentence.
  by rewrite cells_foldl_mark_mine, cells_foldl_mark_safe, !list_to_set_elements_L.
Qed.

End new_sentence.

(** ** Held sentences avoid the settled cells *)

Section pruned_facts.
Import MinesweeperAI.
Implicit Types (ai a : MinesweeperAI.t) (s : Sentence.t) (c cell : Cell).

Lemma Forall_sublist_of {A} (P : A → Prop) (l1 l2 : list A) :
  l1 `sublist_of` l2 → Forall P l2 → Forall P l1.
Proof.
  rewrite !Forall_forall. intros Hsub Hl x Hx. apply Hl. by eapply elem_of_sublist.
Qed.

Lemma pruned_mark_safe a c : pruned a → pruned (mark_safe a c).
Proof.
  unfold pruned. simpl. rewrite Forall_fmap. intros Ha. apply (Forall_impl _ _ _ Ha).
  intros s Hs. simpl. rewrite cells_mark_safe. set_solver.
Qed.

Lemma pruned_mark_mine a c : pruned a → pruned (mark_mine a c).
Proof.
  unfold pruned. simpl. rewrite Forall_fmap. intros Ha. apply (Forall_impl _ _ _ Ha).
  intros s Hs. simpl. rewrite cells_mark_mine. set_solver.
Qed.

Lemma pruned_mark_known a cs1 cs2 : pruned a → pruned (mark_known a cs1 cs2).
Proof.
  unfold mark_known. intros Ha.
  assert (pruned (foldl mark_safe a cs1)) as H1.
  { revert a Ha. induction cs1 as [|c cs IH]; intros a Ha; [done|].
    simpl. by apply IH, pruned_mark_safe. }
  revert H1. generalize (foldl mark_safe a cs1). clear.
  induction cs2 as [|c cs IH]; intros a Ha; [done|].
  simpl. by apply IH, pruned_mark_mine.
Qed.

Lemma carried_pruned : carried pruned.
Proof.
  split.
  - intros a s Ha _. by apply pruned_mark_known.
  - intros a k Ha Hk. unfold pruned in *. simpl. by eapply Forall_sublist_of.
  - intros a Ha. unfold pruned in *. simpl. apply Forall_app. split; [done|].
    rewrite Forall_fmap. apply Forall_forall. intros p Hp. unfold compose.
    rewrite cells_difference. apply subset_pairs_inv in Hp as (_ & Hb & _).
    rewrite Forall_forall in Ha. specialize (Ha _ Hb). set_solver.
Qed.

Lemma pruned_init h w : pruned (init h w).
Proof. constructor. Qed.

Lemma pruned_add_sentence ai cell n : pruned ai → pruned (add_sentence ai cell n).
Proof.
  intros Ha. rewrite add_sentence_spec. unfold pruned in *. simpl.
  apply Forall_app. split.
  - rewrite Forall_fmap. apply (Forall_impl _ _ _ Ha).
    intros s Hs. simpl. rewrite cells_mark_safe. set_solver.
  - apply Forall_singleton. rewrite cells_pruned_sentence. set_solver.
Qed.

End pruned_facts.

(** ** Held sentences are true of the mine placement *)

Section sound_facts.
Import MinesweeperAI.
Context (M : gset Cell).
Implicit Types (ai a : MinesweeperAI.t) (s : Sentence.t) (c cell : Cell).

Lemma true_of_mark_safe s c : true_of M s → c ∉ M → true_of M (Sentence.mark_safe s c).
Proof.
  unfold true_of. intros Hs Hc. rewrite count_mark_safe, cells_mark_safe, Hs.
  do 2 f_equal. set_solver.
Qed.

Lemma true_of_mark_mine s c : true_of M s → c ∈ M → true_of M (Sentence.mark_mine s c).
Proof.
  unfold true_of, Sentence.mark_mine. intros Hs Hc. case_bool_decide as Hin; [|done].
  simpl. rewrite Hs.
  assert (Sentence.cells s ∩ M = {[c]} ∪ (Sentence.cells s ∖ {[c]}) ∩ M) as ->.
  { apply set_eq. intros x. destruct (decide (x = c)); set_solver. }
  rewrite size_union, size_singleton by set_solver. lia.
Qed.

Lemma sound_mark_safe a c : sound M a → c ∉ M → sound M (mark_safe a c).
Proof.
  intros (Hm & Hs & Hk) Hc. split_and!; simpl; [done | set_solver |].
  rewrite Forall_fmap. apply (Forall_impl _ _ _ Hk). intros s Hs'.
  by apply true_of_mark_safe.
Qed.

Lemma sound_mark_mine a c : sound M a → c ∈ M → sound M (mark_mine a c).
Proof.
  intros (Hm & Hs & Hk) Hc. split_and!; simpl; [set_solver | done |].
  rewrite Forall_fmap. apply (Forall_impl _ _ _ Hk). intros s Hs'.
  by apply true_of_mark_mine.
Qed.

(** What a true sentence knows is right. *)
Lemma known_safes_true s : true_of M s → Sentence.known_safes s ## M.
Proof.
  unfold true_of, Sentence.known_safes. intros Hs. case_bool_decide as H0; [|set_solver].
  assert (size (Sentence.cells s ∩ M) = 0) as Hsz by lia.
  apply size_empty_iff in Hsz. set_solver.
Qed.

Lemma known_mines_true s : true_of M s → Sentence.known_mines s ⊆ M.
Proof.
  unfold true_of, Sentence.known_mines. intros Hs. case_bool_decide as Hsz; [|set_solver].
  assert (Sentence.cells s ∩ M = Sentence.cells s) as Heq.
  { apply set_subseteq_size_eq; [set_solver | lia]. }
  set_solver.
Qed.

Lemma sound_mark_known a cs1 cs2 :
  sound M a → Forall (λ c, c ∉ M) cs1 → Forall (λ c, c ∈ M) cs2 →
  sound M (mark_known a cs1 cs2).
Proof.
  unfold mark_known. intros Ha H1 H2.
  assert (sound M (foldl mark_safe a cs1)) as Hs.
  { revert a Ha. induction H1 as [|c cs Hc _ IH]; intros a Ha; [done|].
    simpl. by apply IH, sound_mark_safe. }
  revert Hs. generalize (foldl mark_safe a cs1). clear Ha H1.
  induction H2 as [|c cs Hc _ IH]; intros b Hb; [done|].
  simpl. by apply IH, sound_mark_mine.
Qed.

Lemma true_of_difference p :
  true_of M p.1 → true_of M p.2 → Sentence.cells p.1 ⊆ Sentence.cells p.2 →
  true_of M (difference p).
Proof.
  unfold true_of. intros H1 H2 Hsub. rewrite cells_difference.
  unfold difference. simpl. rewrite H1, H2.
  assert (Sentence.cells p.2 ∩ M
          = (Sentence.cells p.1 ∩ M) ∪ (Sentence.cells p.2 ∖ Sentence.cells p.1) ∩ M) as ->.
  { apply set_eq. intros x. destruct (decide (x ∈ Sentence.cells p.1)); set_solver. }
  rewrite size_union by set_solver. lia.
Qed.

Lemma carried_sound : carried (sound M).
Proof.
  split.
  - intros a s Ha Hs. pose proof Ha as (_ & _ & Hk).
    rewrite Forall_forall in Hk. specialize (Hk _ Hs).
    apply sound_mark_known; [done | |]; apply Forall_forall; intros c Hc%elem_of_elements.
    + pose proof (known_safes_true _ Hk). set_solver.
    + pose proof (known_mines_true _ Hk). set_solver.
  - intros a k (Hm & Hs & Hk) Hsub. split_and!; simpl; [done | done |].
    by eapply Forall_sublist_of.
  - intros a (Hm & Hs & Hk). split_and!; simpl; [done | done |].
    apply Forall_app. split; [done|]. rewrite Forall_fmap. apply Forall_forall.
    intros p Hp. unfold compose. apply subset_pairs_inv in Hp as (Ha & Hb & Hsub).
    rewrite Forall_forall in Hk. apply true_of_difference; [auto | auto | apply Hsub].
Qed.

Lemma sound_init h w : sound M (init h w).
Proof. split_and!; simpl; [set_solver | set_solver | constructor]. Qed.

Lemma sound_add_sentence ai cell n :
  sound M ai → valid_hint (height ai) (width ai) M (cell, n) →
  sound M (add_sentence ai cell n).
Proof.
  intros (Hm & Hs & Hk) (_ & Hcell & Hn). rewrite add_sentence_spec.
  split_and!; simpl; [done | set_solver |].
  apply Forall_app. split.
  - rewrite Forall_fmap. apply (Forall_impl _ _ _ Hk). intros s Hs'.
    by apply true_of_mark_safe.
  - apply Forall_singleton. unfold pruned_sentence.
    assert (true_of M (Sentence.init (neighbours ai cell) n)) as Hnew by exact Hn.
    assert (∀ cs s, Forall (λ c, c ∉ M) cs → true_of M s →
                    true_of M (foldl Sentence.mark_safe s cs)) as Hsafe.
    { intros cs. induction cs as [|c cs IH]; intros s Hcs Hs'; [done|].
      inversion_clear Hcs. simpl. by apply IH, true_of_mark_safe. }
    assert (∀ cs s, Forall (λ c, c ∈ M) cs → true_of M s →
                    true_of M (foldl Sentence.mark_mine s cs)) as Hmine.
    { intros cs. induction cs as [|c cs IH]; intros s Hcs Hs'; [done|].
      inversion_clear Hcs. simpl. by apply IH, true_of_mark_mine. }
    apply Hmine; [|apply Hsafe; [|done]]; apply Forall_forall;
      intros c Hc%elem_of_elements; set_solver.
Qed.

End sound_facts.

(** ** What the second half keeps *)

Section entailment.
Import MinesweeperAI.
Context (M : gset Cell).
Implicit Types (x s : Sentence.t) (k q l : list Sentence.t).

Lemma remove_each_quiet_count x q l :
  length (filter (eq x) l)
  ≤ length (filter (eq x) (remove_each_quiet q l)) + length (filter (eq x) q).
Proof.
  revert l. induction q as [|s q IH]; intros l; simpl; [lia|].
  specialize (IH (default l (list_remove s l))). rewrite filter_cons.
  destruct (list_remove s l) as [l'|] eqn:E; simpl in *.
  - destruct (decide (x = s)) as [<-|Hne]; simpl.
    + rewrite (list_remove_filter_length (eq x) x l l') by done. lia.
    + rewrite <-(list_remove_filter (eq x) s l l') by done. lia.
  - destruct (decide (x = s)); simpl; lia.
Qed.

Lemma filter_eq_fmap_le {A} (f g : A → Sentence.t) x (l : list A) :
  (∀ p, p ∈ l → x = f p → x = g p) →
  length (filter (eq x) (f <$> l)) ≤ length (filter (eq x) (g <$> l)).
Proof.
  induction l as [|p l IH]; intros Hfg; [done|]. rewrite !fmap_cons, !filter_cons.
  assert (length (filter (eq x) (f <$> l)) ≤ length (filter (eq x) (g <$> l))) as Hl.
  { apply IH. intros p' Hp'. apply Hfg. by right. }
  destruct (decide (x = f p)) as [Hf|Hf].
  - rewrite decide_True by (apply Hfg; [left | done]). cbn [length]. lia.
  - destruct (decide (x = g p)); cbn [length]; lia.
Qed.

Lemma filter_eq_elem x l : 0 < length (filter (eq x) l) → x ∈ l.
Proof.
  destruct (filter (eq x) l) as [|y l'] eqn:Hf; simpl; [lia|]. intros _.
  assert (y ∈ filter (eq x) l) as Hy by (rewrite Hf; left).
  by apply list_elem_of_filter in Hy as [-> ?].
Qed.

Lemma elem_filter_eq x l : x ∈ l → 0 < length (filter (eq x) l).
Proof.
  intros Hx. assert (x ∈ filter (eq x) l) as Hf by by apply list_elem_of_filter.
  destruct (filter (eq x) l); [by apply elem_of_nil in Hf | simpl; lia].
Qed.

(** A sentence and what is left of a larger one add up to the larger one. *)
Lemma true_of_sum p :
  true_of M p.1 → true_of M (difference p) → Sentence.cells p.1 ⊆ Sentence.cells p.2 →
  true_of M p.2.
Proof.
  unfold true_of. rewrite cells_difference. unfold difference. simpl.
  intros H1 H2 Hsub.
  assert (Sentence.cells p.2 ∩ M
          = (Sentence.cells p.1 ∩ M) ∪ (Sentence.cells p.2 ∖ Sentence.cells p.1) ∩ M) as ->.
  { apply set_eq. intros c. destruct (decide (c ∈ Sentence.cells p.1)); set_solver. }
  rewrite size_union by set_solver. lia.
Qed.

(** Whatever is true of all the sentences held after the second half was
    true of those held before it, and of every difference it formed. *)
Lemma subsume_list_entails k :
  Forall (true_of M) (subsume_list k) →
  Forall (true_of M) (k ++ (difference <$> subset_pairs k)).
Proof.
  intros Hafter. rewrite Forall_forall in Hafter.
  set (new := difference <$> subset_pairs k).
  set (queue := snd <$> subset_pairs k).
  assert (∀ x, x ∈ k ++ new → x ∉ subsume_list k → x ∈ queue) as Hlost.
  { intros x. apply remove_each_quiet_lost. }
  assert (∀ x, x ∈ queue → x ∈ k ∧ ∃ D, D ∈ k ∧ Sentence.cells D ⊂ Sentence.cells x)
    as Hqueue.
  { intros x (p & -> & Hp)%list_elem_of_fmap.
    apply subset_pairs_inv in Hp as (? & ? & ?). eauto. }
  assert (∀ E, E ∈ k → vacant E → E = Sentence.mk ∅ 0) as Hvacant.
  { intros E HE Hv. destruct (decide (E ∈ subsume_list k)) as [Hin|Hout].
    - apply Hafter in Hin. unfold true_of in Hin. unfold vacant in Hv.
      destruct E as [cs n]. simpl in *. subst cs. f_equal.
      rewrite Hin. replace (∅ ∩ M) with (∅ : gset Cell) by set_solver. done.
    - apply Hlost, Hqueue in Hout as (_ & D & _ & HD); [|apply elem_of_app; by left].
      unfold vacant in Hv. rewrite Hv in HD. set_solver. }
  assert (∀ n x, size (Sentence.cells x) < n → x ∈ k → true_of M x) as Hold.
  { induction n as [|n IH]; intros x Hn Hx; [lia|].
    destruct (decide (x ∈ subsume_list k)) as [Hin|Hout]; [by apply Hafter|].
    assert (x ∈ queue) as Hq by (apply Hlost; [apply elem_of_app; by left | done]).
    destruct (decide (Exists (λ D, Sentence.cells D ⊂ Sentence.cells x ∧ ¬ vacant D) k))
      as [(D & HD & Hsub & Hnv)%Exists_exists|Hnone].
    - assert (size (Sentence.cells D) ≠ 0) as Hsz by by rewrite <-vacant_size.
      pose proof (subset_size _ _ Hsub) as Hlt.
      assert (true_of M D) as HtD by (apply IH; [lia | done]).
      assert (true_of M (difference (D, x))) as HtN.
      { assert (difference (D, x) ∈ k ++ new) as HN.
        { apply elem_of_app. right. apply list_elem_of_fmap_2.
          by apply elem_of_subset_pairs. }
        destruct (decide (difference (D, x) ∈ subsume_list k)) as [?|HoutN];
          [by apply Hafter|].
        apply Hlost, Hqueue in HoutN as [HNk _]; [|done].
        apply IH; [|done]. rewrite cells_difference. simpl.
        rewrite size_difference by apply Hsub. lia. }
      apply (true_of_sum (D, x)); [done | done | apply Hsub].
    - exfalso. apply Hout. apply filter_eq_elem.
      pose proof (remove_each_quiet_count x queue (k ++ new)) as Hcount.
      rewrite filter_app, length_app in Hcount.
      pose proof (elem_filter_eq _ _ Hx) as Hpos.
      assert (length (filter (eq x) queue) ≤ length (filter (eq x) new)) as Hle.
      { apply filter_eq_fmap_le. intros p Hp ->.
        apply subset_pairs_inv in Hp as (Ha & _ & Hsub).
        assert (vacant p.1) as Hv.
        { destruct (decide (vacant p.1)) as [?|Hnv]; [done|].
          exfalso. apply Hnone, Exists_exists. eauto. }
        unfold difference. rewrite (Hvacant _ Ha Hv). simpl.
        destruct p.2 as [cs m]. simpl. unfold Sentence.init. f_equal.
        - rewrite list_to_set_elements_L. set_solver.
        - lia. }
      change (subsume_list k) with (remove_each_quiet queue (k ++ new)). lia. }
  apply Forall_forall. intros x Hx.
  destruct (decide (x ∈ subsume_list k)) as [?|Hout]; [by apply Hafter|].
  apply Hlost, Hqueue in Hout as [Hk _]; [|done].
  by apply (Hold (S (size (Sentence.cells x)))); [lia|].
Qed.

End entailment.

(** ** Small facts for the statements below *)

Section auxiliary.
Import MinesweeperAI.
Implicit Types (ai : MinesweeperAI.t) (cell : Cell).

Lemma loop_never_raises fuel ai e : loop fuel ai ≠ Raises e.
Proof.
  revert ai. induction fuel as [|fuel IH]; intros ai; [done|]. simpl.
  destruct (pass_cases ai) as (ai2 & d & -> & _). simpl. by destruct d.
Qed.

Lemma add_knowledge_returns ai cell n :
  ∃ fuel ai', add_knowledge fuel ai cell n = Returns ai'.
Proof. apply loop_terminates. Qed.

Lemma add_knowledge_frame fuel ai cell n ai' :
  add_knowledge fuel ai cell n = Returns ai' →
  moves_made ai' = {[cell]} ∪ moves_made ai
  ∧ height ai' = height ai ∧ width ai' = width ai.
Proof.
  intros Hadd. unfold add_knowledge in Hadd.
  eapply (loop_carried _ _ _ _ (carried_frame _ _ _)) in Hadd; [done|].
  by rewrite add_sentence_spec.
Qed.

Lemma add_knowledge_grows fuel ai cell n ai' :
  add_knowledge fuel ai cell n = Returns ai' →
  {[cell]} ∪ safes ai ⊆ safes ai' ∧ mines ai ⊆ mines ai'.
Proof.
  intros Hadd. unfold add_knowledge in Hadd.
  eapply (loop_carried _ _ _ _ (carried_grows _ _)) in Hadd; [done|].
  by rewrite add_sentence_spec.
Qed.

Lemma play_fuel_mono fuel fuel' ai hints ai' :
  play fuel ai hints = Returns ai' → fuel ≤ fuel' → play fuel' ai hints = Returns ai'.
Proof.
  revert ai. induction hints as [|[cell n] hints IH]; intros ai Hp Hle; [done|].
  simpl in *. destruct (add_knowledge fuel ai cell n) as [ai1| |] eqn:Hadd; [|done|done].
  unfold add_knowledge in *. rewrite (loop_fuel_mono _ _ _ _ Hadd Hle). simpl in *.
  by apply IH.
Qed.

Lemma play_returns ai hints : ∃ fuel ai', play fuel ai hints = Returns ai'.
Proof.
  revert ai. induction hints as [|[cell n] hints IH]; intros ai.
  { by exists 0, ai. }
  destruct (add_knowledge_returns ai cell n) as (f1 & ai1 & H1).
  destruct (IH ai1) as (f2 & ai' & H2).
  exists (f1 `max` f2), ai'. simpl. unfold add_knowledge in *.
  rewrite (loop_fuel_mono _ (f1 `max` f2) _ _ H1) by lia. simpl.
  apply (play_fuel_mono f2); [done | lia].
Qed.

Lemma neighbours_dimensions ai cell :
  neighbours ai cell = neighbours (init (height ai) (width ai)) cell.
Proof. done. Qed.

Lemma play_sound (M : gset Cell) fuel ai hints ai' :
  sound M ai → Forall (valid_hint (height ai) (width ai) M) hints →
  play fuel ai hints = Returns ai' → sound M ai'.
Proof.
  revert ai. induction hints as [|[cell n] hints IH]; intros ai Hs Hv Hp.
  { by injection Hp as <-. }
  inversion_clear Hv as [|?? Hv1 Hv2]. simpl in Hp.
  destruct (add_knowledge fuel ai cell n) as [ai1| |] eqn:Hadd; [|done|done].
  simpl in Hp. destruct (add_knowledge_frame _ _ _ _ _ Hadd) as (_ & Hh & Hw).
  apply (IH ai1); [|by rewrite Hh, Hw|done].
  eapply (loop_carried _ _ _ _ (carried_sound M)); [|exact Hadd].
  by apply sound_add_sentence.
Qed.

Lemma elem_of_range lo hi x : x ∈ range lo hi ↔ (lo ≤ x ∧ x < hi)%Z.
Proof.
  unfold range. rewrite list_elem_of_fmap. split.
  - intros (i & -> & Hi%elem_of_seq). lia.
  - intros Hx. exists (Z.to_nat (x - lo)). rewrite elem_of_seq. lia.
Qed.

(** The candidates of [make_random_move]: the first coordinate is bounded by
    the width and the second by the height. *)
Lemma elem_of_random_candidates ai cell :
  cell ∈ random_candidates ai ↔
  ((0 ≤ cell.1 ∧ cell.1 < width ai)%Z ∧ (0 ≤ cell.2 ∧ cell.2 < height ai)%Z)
  ∧ (cell ∉ moves_made ai) ∧ (cell ∉ mines ai).
Proof.
  unfold random_candidates. rewrite !elem_of_difference, elem_of_list_to_set.
  rewrite list_elem_of_bind. destruct cell as [i j]. simpl. split.
  - intros [[(i' & (j' & Hin%list_elem_of_singleton & Hj%elem_of_range)%list_elem_of_bind
                 & Hi%elem_of_range) ?] ?].
    injection Hin as -> ->. done.
  - intros ([Hi Hj] & ? & ?). split_and!; [|done|done].
    exists i. split; [|by apply elem_of_range].
    apply list_elem_of_bind. exists j. split; [by left | by apply elem_of_range].
Qed.

(** [make_random_move] answers from its candidates, and with nothing only
    when there is none. *)
Lemma make_random_move_candidates ai draw :
  (make_random_move ai draw).2 = ai
  ∧ ((make_random_move ai draw).1 = None ↔ random_candidates ai = ∅)
  ∧ ∀ cell, (make_random_move ai draw).1 = Some cell → cell ∈ random_candidates ai.
Proof.
  unfold make_random_move. cbn [fst snd]. split_and!; [done | |].
  - split.
    + intros Hnone. apply lookup_ge_None in Hnone.
      destruct (elements (random_candidates ai)) as [|c l] eqn:Hel.
      * by apply elements_empty_inv, leibniz_equiv in Hel.
      * pose proof (Nat.mod_upper_bound draw (length (c :: l))) as Hlt.
        simpl in Hlt, Hnone. lia.
    + intros ->. by rewrite elements_empty.
  - intros cell Hc%list_elem_of_lookup_2. by apply elem_of_elements in Hc.
Qed.

End auxiliary.

(** ** The hints of the board *)

Section board.
Import MinesweeperAI.
Implicit Types (g : Minesweeper.t) (cell c : Cell).

Lemma NoDup_range lo hi : NoDup (range lo hi).
Proof.
  unfold range. apply NoDup_fmap_2_strong; [|apply NoDup_seq].
  intros x y _ _ Heq. lia.
Qed.

(** The eight cells around [cell], as far as they lie on the board. *)
Lemma elem_of_neighbours ai cell c :
  c ∈ neighbours ai cell ↔
  ((cell.1 - 1 ≤ c.1 ∧ c.1 ≤ cell.1 + 1)%Z ∧ (cell.2 - 1 ≤ c.2 ∧ c.2 ≤ cell.2 + 1)%Z)
  ∧ c ≠ cell ∧ on_board (height ai) (width ai) c.
Proof.
  unfold neighbours, on_board. rewrite list_elem_of_bind.
  destruct c as [i j], cell as [r k]. simpl. split.
  - intros (i' & (j' & Hin & Hj%elem_of_range)%list_elem_of_bind & Hi%elem_of_range).
    case_bool_decide as Hc; [|by apply elem_of_nil in Hin].
    apply list_elem_of_singleton in Hin as [= -> ->].
    split_and!; try lia. intros [= -> ->]. lia.
  - intros ((Hi & Hj) & Hne & Hb). exists i. split; [|apply elem_of_range; lia].
    apply list_elem_of_bind. exists j. split; [|apply elem_of_range; lia].
    rewrite bool_decide_eq_true_2; [left|]. split; [|done].
    destruct (decide (i = r)) as [->|]; [|by left].
    right. intros ->. done.
Qed.

Lemma NoDup_neighbours ai cell : NoDup (neighbours ai cell).
Proof.
  unfold neighbours. apply NoDup_bind; [| |apply NoDup_range].
  - intros i1 i2 c _ _ (j1 & H1 & _)%list_elem_of_bind (j2 & H2 & _)%list_elem_of_bind.
    repeat case_bool_decide; try by (apply elem_of_nil in H1 || apply elem_of_nil in H2).
    apply list_elem_of_singleton in H1, H2. congruence.
  - intros i _. apply NoDup_bind; [| |apply NoDup_range].
    + intros j1 j2 c _ _ H1 H2.
      repeat case_bool_decide; try by (apply elem_of_nil in H1 || apply elem_of_nil in H2).
      apply list_elem_of_singleton in H1, H2. congruence.
    + intros j _. case_bool_decide; [apply NoDup_singleton | apply NoDup_nil_2].
Qed.

Lemma elem_of_mine_set g c :
  c ∈ mine_set g ↔
  on_board (Minesweeper.height g) (Minesweeper.width g) c
  ∧ Minesweeper.board_at g c.1 c.2 = true.
Proof.
  unfold mine_set, on_board. rewrite elem_of_list_to_set, list_elem_of_filter.
  rewrite list_elem_of_bind. destruct c as [i j]. simpl. split.
  - intros [Hm (i' & (j' & Hin%list_elem_of_singleton & Hj%elem_of_range)%list_elem_of_bind
                   & Hi%elem_of_range)].
    injection Hin as -> ->. split; [lia | done].
  - intros [[Hi Hj] Hm]. split; [done|]. exists i. split; [|by apply elem_of_range].
    apply list_elem_of_bind. exists j. split; [by left | by apply elem_of_range].
Qed.

(** [nearby_mines] counts the neighbours that read [True]. *)
Lemma nearby_mines_filter g cell :
  Minesweeper.nearby_mines g cell
  = Z.of_nat
      (length (filter (λ c : Cell, Minesweeper.board_at g c.1 c.2 = true)
                      (neighbours (init (Minesweeper.height g) (Minesweeper.width g)) cell))).
Proof.
  unfold Minesweeper.nearby_mines, neighbours. simpl.
  set (P := λ c : Cell, Minesweeper.board_at g c.1 c.2 = true).
  set (nb := λ i j : Z,
         if bool_decide ((i ≠ cell.1 ∨ j ≠ cell.2)
                         ∧ (0 ≤ i ∧ i < Minesweeper.height g)%Z
                         ∧ (0 ≤ j ∧ j < Minesweeper.width g)%Z)
         then [(i, j)] else []).
  assert (∀ i j n, Minesweeper.visit g cell i j n
                   = (n + Z.of_nat (length (filter P (nb i j))))%Z) as Hvisit.
  { intros i j n. unfold Minesweeper.visit, nb. destruct cell as [r k]. simpl.
    case_bool_decide as Heq.
    - injection Heq as -> ->. rewrite bool_decide_eq_false_2 by naive_solver. simpl. lia.
    - case_bool_decide as Hb.
      + rewrite bool_decide_eq_true_2.
        * rewrite filter_cons, filter_nil. unfold P. simpl.
          destruct (Minesweeper.board_at g i j); simpl; lia.
        * split; [|done]. destruct (decide (i = r)) as [->|]; [|by left].
          right. intros ->. done.
      + rewrite bool_decide_eq_false_2 by naive_solver. simpl. lia. }
  assert (∀ i js n, foldl (λ count j, Minesweeper.visit g cell i j count) n js
                    = (n + Z.of_nat (length (filter P (js ≫= nb i))))%Z) as Hinner.
  { intros i js. induction js as [|j js IH]; intros n; [simpl; lia|].
    cbn [foldl]. rewrite IH, Hvisit, bind_cons, filter_app, length_app. lia. }
  generalize (range (cell.1 - 1) (cell.1 + 2)) as rows.
  generalize (range (cell.2 - 1) (cell.2 + 2)) as cols. intros cols rows.
  change 0%Z with (Z.of_nat 0) at 1.
  assert (∀ n, foldl (λ count i,
                       foldl (λ count j, Minesweeper.visit g cell i j count) count cols)
                     n rows
               = (n + Z.of_nat (length (filter P (rows ≫= λ i, cols ≫= nb i))))%Z) as Houter.
  { induction rows as [|i rows IH]; intros n; [simpl; lia|].
    cbn [foldl]. rewrite IH, Hinner, bind_cons, filter_app, length_app. lia. }
  rewrite Houter. simpl. done.
Qed.

(** What the board answers for a cell that is no mine is a valid hint for the
    placement the board stands for. *)
Lemma nearby_mines_valid_hint g cell :
  on_board (Minesweeper.height g) (Minesweeper.width g) cell →
  Minesweeper.board_at g cell.1 cell.2 = false →
  valid_hint (Minesweeper.height g) (Minesweeper.width g) (mine_set g)
             (cell, Minesweeper.nearby_mines g cell).
Proof.
  intros Hon Hsafe. split_and!; [done | |].
  - rewrite elem_of_mine_set. intros [_ Hm]. congruence.
  - rewrite nearby_mines_filter. f_equal.
    set (l := neighbours _ cell).
    set (P := λ c : Cell, Minesweeper.board_at g c.1 c.2 = true).
    assert (list_to_set l ∩ mine_set g = (list_to_set (filter P l) : gset Cell)) as ->.
    { apply set_eq. intros c.
      rewrite elem_of_intersection, !elem_of_list_to_set, list_elem_of_filter,
        elem_of_mine_set.
      split; [tauto|]. intros [HP Hc]. split_and!; [done | | done].
      by apply elem_of_neighbours in Hc as (_ & _ & ?). }
    rewrite size_list_to_set; [done|]. apply NoDup_filter, NoDup_neighbours.
Qed.

(** A hint counts between zero and eight mines. *)
Lemma valid_hint_range h w M cell n : valid_hint h w M (cell, n) → (0 ≤ n ∧ n ≤ 8)%Z.
Proof.
  intros (_ & _ & ->). split; [lia|].
  set (l := neighbours (init h w) cell).
  assert (size (list_to_set l ∩ M) ≤ length l) as Hle.
  { etrans; [apply subseteq_size, intersection_subseteq_l|].
    rewrite size_list_to_set; [done | apply NoDup_neighbours]. }
  assert (length l ≤ 8); [|lia].
  unfold l, neighbours, range. simpl.
  replace (Z.to_nat (cell.1 + 2 - (cell.1 - 1))) with 3 by lia.
  replace (Z.to_nat (cell.2 + 2 - (cell.2 - 1))) with 3 by lia.
  cbn [seq fmap list_fmap mbind list_bind app].
  rewrite !length_app.
  assert (∀ (b : bool) (c : Cell), length (if b then [c] else []) ≤ 1) as Hone
    by (intros [] c; simpl; lia).
  repeat match goal with
         | |- context [length (if bool_decide ?P then [?c] else [])] =>
             let Hc := fresh in
             first [ assert (¬ P) as Hc by lia;
                     rewrite (bool_decide_eq_false_2 P Hc); clear Hc
                   | pose proof (Hone (bool_decide P) c) as Hc;
                     generalize dependent (length (if bool_decide P then [c] else []));
                     intros ? Hc ]
         end.
  cbn [length]. lia.
Qed.

End board.

(** * The properties of the specification *)

(** C1.  Every call to [add_knowledge] terminates: from any state of the
    knowledge base, for any cell and any count, some number of passes of the
    deduction loop is enough for the call to return normally (and any larger
    number gives the same state); hence every sequence of hints given to a
    fresh knowledge base on any grid is processed to the end.  The hints need
    not even be valid. *)
Theorem add_knowledge_terminates :
  (∀ ai cell n, ∃ fuel ai',
      ∀ fuel', fuel ≤ fuel' → MinesweeperAI.add_knowledge fuel' ai cell n = Returns ai')
  ∧ (∀ h w hints, ∃ fuel ai',
      ∀ fuel', fuel ≤ fuel' → play fuel' (MinesweeperAI.init h w) hints = Returns ai').
Proof.
  split.
  - intros ai cell n. destruct (add_knowledge_returns ai cell n) as (fuel & ai' & Hret).
    exists fuel, ai'. intros fuel' Hle. by apply (loop_fuel_mono fuel).
  - intros h w hints.
    destruct (play_returns (MinesweeperAI.init h w) hints) as (fuel & ai' & Hret).
    exists fuel, ai'. intros fuel' Hle. by apply (play_fuel_mono fuel).
Qed.

(** C2, as stated, fails: on a 3x2 board with one mine at (0,0), the two valid
    hints for (1,0) and (1,1) leave two sentences with the same four cells in
    the list. *)
Lemma equal_cell_sets_coexist :
  Forall (valid_hint 3 2 {[ (0, 0)%Z ]}) [((1, 0), 1); ((1, 1), 1)]%Z
  ∧ ∃ ai, play 1 (MinesweeperAI.init 3 2) [((1, 0), 1); ((1, 1), 1)]%Z = Returns ai
          ∧ ¬ NoDup (Sentence.cells <$> MinesweeperAI.knowledge ai).
Proof.
  split.
  - repeat constructor; try done; vm_compute; done.
  - eexists. split; [vm_compute; reflexivity|].
    apply (proj1 (bool_decide_eq_false _)). vm_compute. reflexivity.
Qed.

(** C2, amended.  [add_knowledge] appends the new sentence whatever the list
    holds, so sentences with identical cell sets can coexist; what never
    coexists when [add_knowledge] returns is a pair of sentences one of whose
    cell sets is strictly included in the other's. *)
Theorem add_knowledge_no_strict_subset fuel ai cell n ai' :
  MinesweeperAI.add_knowledge fuel ai cell n = Returns ai' →
  length (MinesweeperAI.knowledge (MinesweeperAI.add_sentence ai cell n))
  = S (length (MinesweeperAI.knowledge ai))
  ∧ ∀ s1 s2, s1 ∈ MinesweeperAI.knowledge ai' → s2 ∈ MinesweeperAI.knowledge ai' →
             Sentence.cells s1 ⊆ Sentence.cells s2 → Sentence.cells s1 = Sentence.cells s2.
Proof.
  intros Hadd. split.
  - rewrite add_sentence_spec. simpl. rewrite length_app, length_fmap. simpl. lia.
  - intros s1 s2 H1 H2 Hsub. apply loop_final in Hadd as [Hpairs _].
    destruct (decide (Sentence.cells s1 = Sentence.cells s2)) as [|Hne]; [done|].
    assert ((s1, s2) ∈ MinesweeperAI.subset_pairs (MinesweeperAI.knowledge ai')) as Hin.
    { apply elem_of_subset_pairs. split_and!; [done | done | set_solver]. }
    rewrite Hpairs in Hin. by apply elem_of_nil in Hin.
Qed.

Lemma add_knowledge_no_strict_subset_witness :
  ∃ ai', MinesweeperAI.add_knowledge 1 (MinesweeperAI.init 3 3) (1, 1)%Z 1 = Returns ai'
         ∧ length (MinesweeperAI.knowledge
                     (MinesweeperAI.add_sentence (MinesweeperAI.init 3 3) (1, 1)%Z 1)) = 1
         ∧ ∀ s1 s2, s1 ∈ MinesweeperAI.knowledge ai' → s2 ∈ MinesweeperAI.knowledge ai' →
                    Sentence.cells s1 ⊆ Sentence.cells s2 →
                    Sentence.cells s1 = Sentence.cells s2.
Proof.
  eexists. split; [vm_compute; reflexivity|].
  apply (add_knowledge_no_strict_subset 1 (MinesweeperAI.init 3 3) (1, 1)%Z 1).
  vm_compute. reflexivity.
Defined.

(** C3, as stated, fails.  On a 3x4 board with mines at (0,0), (0,3), (1,3),
    (2,0) and (2,2), the fifth valid hint leaves, after the first half of the
    first pass, the sentences {(1,3),(2,2)} = 2, {(2,2)} = 1 and {} = 0.  The
    empty one is strictly included in the first; the difference of the two,
    {(1,3),(2,2)} = 2, is appended, and removed again when the first sentence
    is removed a second time.  After the pass it is not held, and none of its
    cells is settled. *)
Lemma difference_not_kept :
  let M : gset Cell := {[ (0, 0); (0, 3); (1, 3); (2, 0); (2, 2) ]}%Z in
  let hints := [((1, 1), 3); ((2, 3), 2); ((2, 1), 2); ((1, 0), 2)]%Z in
  let A := Sentence.mk ∅ 0 in
  let B := Sentence.mk {[ (1, 3); (2, 2) ]}%Z 2 in
  Forall (valid_hint 3 4 M) (hints ++ [((0, 1), 1)]%Z)
  ∧ ∃ ai4 ai,
      play 2 (MinesweeperAI.init 3 4) hints = Returns ai4
      ∧ MinesweeperAI.resolve (MinesweeperAI.add_sentence ai4 (0, 1)%Z 1)
        = Returns (ai, false)
      ∧ A ∈ MinesweeperAI.knowledge ai
      ∧ B ∈ MinesweeperAI.knowledge ai
      ∧ Sentence.cells A ⊂ Sentence.cells B
      ∧ (MinesweeperAI.difference (A, B)
         ∉ MinesweeperAI.knowledge (MinesweeperAI.subsume ai false).1)
      ∧ Sentence.cells (MinesweeperAI.difference (A, B))
        ## MinesweeperAI.safes (MinesweeperAI.subsume ai false).1
           ∪ MinesweeperAI.mines (MinesweeperAI.subsume ai false).1.
Proof.
  intros M hints A B. split.
  - repeat constructor; try done; vm_compute; done.
  - eexists _, _. split_and!; [vm_compute; reflexivity | vm_compute; reflexivity | ..];
      compute_done.
Qed.

(** C3, amended.  For two sentences A and B held when the second half of a
    pass starts, with the cells of A strictly included in those of B, the
    sentence (B.cells - A.cells, B.count - A.count) is still held when the
    pass ends unless an equal sentence was held already and had a strict
    subset of its own among the held sentences; in every case it is true of
    each mine placement of which all the sentences held after the pass are
    true. *)
Theorem difference_kept_or_entailed ai done A B :
  A ∈ MinesweeperAI.knowledge ai → B ∈ MinesweeperAI.knowledge ai →
  Sentence.cells A ⊂ Sentence.cells B →
  let after := MinesweeperAI.knowledge (MinesweeperAI.subsume ai done).1 in
  let N := MinesweeperAI.difference (A, B) in
  (N ∈ after
   ∨ (N ∈ MinesweeperAI.knowledge ai
      ∧ ∃ D, D ∈ MinesweeperAI.knowledge ai ∧ Sentence.cells D ⊂ Sentence.cells N))
  ∧ ∀ M, Forall (true_of M) after → true_of M N.
Proof.
  intros HA HB Hsub after N. simpl in after.
  assert (N ∈ MinesweeperAI.difference
              <$> MinesweeperAI.subset_pairs (MinesweeperAI.knowledge ai)) as Hnew.
  { apply list_elem_of_fmap_2. by apply elem_of_subset_pairs. }
  split.
  - destruct (decide (N ∈ after)) as [?|Hout]; [by left | right].
    apply remove_each_quiet_lost in Hout; [|apply elem_of_app; by right].
    apply list_elem_of_fmap in Hout as (p & -> & Hp).
    apply subset_pairs_inv in Hp as (? & ? & ?). eauto.
  - intros M Hafter. apply subsume_list_entails in Hafter.
    rewrite Forall_forall in Hafter. apply Hafter, elem_of_app. by right.
Qed.

Lemma difference_kept_or_entailed_witness :
  let A := Sentence.mk {[ (0, 0); (0, 1) ]}%Z 1 in
  let B := Sentence.mk {[ (0, 0); (0, 1); (0, 2) ]}%Z 1 in
  let ai := MinesweeperAI.set_knowledge (MinesweeperAI.init 3 3) [B; A] in
  let after := MinesweeperAI.knowledge (MinesweeperAI.subsume ai true).1 in
  let N := MinesweeperAI.difference (A, B) in
  (N ∈ after
   ∨ (N ∈ MinesweeperAI.knowledge ai
      ∧ ∃ D, D ∈ MinesweeperAI.knowledge ai ∧ Sentence.cells D ⊂ Sentence.cells N))
  ∧ ∀ M, Forall (true_of M) after → true_of M N.
Proof.
  intros A B ai after N.
  apply (difference_kept_or_entailed ai true A B); compute_done.
Defined.

(** C4.  For every grid, every mine placement and every sequence of hints
    that are valid for it, the state in which the last [add_knowledge] call
    returns has no cell that is both a confirmed mine and a confirmed safe
    cell.  (The sequence is arbitrary, so this holds after every call.) *)
Theorem mines_safes_disjoint h w M hints fuel ai :
  Forall (valid_hint h w M) hints →
  play fuel (MinesweeperAI.init h w) hints = Returns ai →
  MinesweeperAI.mines ai ∩ MinesweeperAI.safes ai = ∅.
Proof.
  intros Hvalid Hplay.
  destruct (play_sound M fuel (MinesweeperAI.init h w) hints ai) as (Hm & Hs & _);
    [apply sound_init | done | done |].
  set_solver.
Qed.

Lemma mines_safes_disjoint_witness :
  ∃ ai, play 3 (MinesweeperAI.init 3 3) [((0, 0), 0); ((1, 1), 1); ((0, 2), 0); ((2, 0), 0)]%Z
        = Returns ai
        ∧ MinesweeperAI.mines ai = {[ (2, 2)%Z ]}
        ∧ MinesweeperAI.mines ai ∩ MinesweeperAI.safes ai = ∅.
Proof.
  eexists. split; [vm_compute; reflexivity|]. split; [vm_compute; reflexivity|].
  apply (mines_safes_disjoint 3 3 {[ (2, 2)%Z ]}
           [((0, 0), 0); ((1, 1), 1); ((0, 2), 0); ((2, 0), 0)]%Z 3).
  - repeat constructor; try done; vm_compute; done.
  - vm_compute. reflexivity.
Defined.

(** C5, as stated, fails: a cell off the board, a count of 99 and a cell that
    was played before are all taken without any error, and the state changes. *)
Lemma add_knowledge_checks_nothing :
  (∃ ai', MinesweeperAI.add_knowledge 2 (MinesweeperAI.init 3 3) (5, 5)%Z 0 = Returns ai'
          ∧ (5, 5)%Z ∈ MinesweeperAI.moves_made ai')
  ∧ (∃ ai', MinesweeperAI.add_knowledge 1 (MinesweeperAI.init 3 3) (1, 1)%Z 99 = Returns ai'
            ∧ length (MinesweeperAI.knowledge ai') = 1)
  ∧ (∃ ai1 ai2,
        MinesweeperAI.add_knowledge 1 (MinesweeperAI.init 3 3) (1, 1)%Z 1 = Returns ai1
        ∧ MinesweeperAI.add_knowledge 1 ai1 (1, 1)%Z 1 = Returns ai2
        ∧ length (MinesweeperAI.knowledge ai2) = 2).
Proof.
  split_and!.
  - eexists. split; [vm_compute; reflexivity | by vm_compute].
  - eexists. split; [vm_compute; reflexivity | done].
  - eexists _, _. split_and!; [vm_compute; reflexivity | vm_compute; reflexivity | done].
Qed.

(** C5, amended.  [add_knowledge] checks none of its preconditions: whatever
    the state, the cell and the count, it raises nothing and returns, with the
    cell recorded as a move made and as a safe cell. *)
Theorem add_knowledge_accepts_anything ai cell n :
  (∀ fuel e, MinesweeperAI.add_knowledge fuel ai cell n ≠ Raises e)
  ∧ ∃ fuel ai', MinesweeperAI.add_knowledge fuel ai cell n = Returns ai'
                ∧ MinesweeperAI.moves_made ai' = {[cell]} ∪ MinesweeperAI.moves_made ai
                ∧ cell ∈ MinesweeperAI.safes ai'.
Proof.
  split.
  - intros fuel e. apply loop_never_raises.
  - destruct (add_knowledge_returns ai cell n) as (fuel & ai' & Hret).
    exists fuel, ai'. split_and!; [done | |].
    + by apply add_knowledge_frame in Hret as (? & _).
    + apply add_knowledge_grows in Hret as [? _]. set_solver.
Qed.

(** C6 does not hold of the code: [make_random_move] enumerates the first
    coordinate up to the width and the second up to the height, the reverse
    of the bounds that [add_knowledge] checks.  On a fresh board of height 1
    and width 2 the candidates are (0,0) and (1,0): the cell (1,0), a possible
    answer, is off the board, and the cell (0,1), on the board and untried, is
    never returned.  Once both cells of the board have been played the answer
    is (1,0) where none is left. *)
Theorem make_random_move_off_board :
  let ai := MinesweeperAI.init 1 2 in
  MinesweeperAI.random_candidates ai = {[ (0, 0); (1, 0) ]}%Z
  ∧ (MinesweeperAI.make_random_move ai 1).1 = Some (1, 0)%Z
  ∧ ¬ on_board 1 2 (1, 0)%Z
  ∧ on_board 1 2 (0, 1)%Z
  ∧ (∀ draw, (MinesweeperAI.make_random_move ai draw).1 ≠ Some (0, 1)%Z)
  ∧ ∃ ai', play 2 ai [((0, 0), 0); ((0, 1), 0)]%Z = Returns ai'
           ∧ MinesweeperAI.moves_made ai' = {[ (0, 0); (0, 1) ]}%Z
           ∧ ∀ draw, (MinesweeperAI.make_random_move ai' draw).1 = Some (1, 0)%Z.
Proof.
  intros ai.
  assert (elements (MinesweeperAI.random_candidates ai) = [(0, 0); (1, 0)]%Z) as Hel
    by (vm_compute; reflexivity).
  split_and!.
  - vm_compute. reflexivity.
  - vm_compute. reflexivity.
  - unfold on_board. simpl. lia.
  - unfold on_board. simpl. lia.
  - intros draw Hd%list_elem_of_lookup_2. rewrite Hel in Hd.
    repeat (apply elem_of_cons in Hd as [Hd|Hd]; [discriminate|]).
    by apply elem_of_nil in Hd.
  - eexists. split; [vm_compute; reflexivity|]. split; [vm_compute; reflexivity|].
    intros draw. unfold MinesweeperAI.make_random_move.
    match goal with |- (?l !! _, _).1 = _ =>
      assert (l = [(1, 0)%Z]) as -> by (vm_compute; reflexivity) end.
    cbn [length fst]. by rewrite Nat.mod_1_r.
Qed.

(** C7, as stated, fails: two sentences over the same cell with different
    counts are not equal. *)
Lemma equal_cells_unequal_sentences :
  let s1 := Sentence.mk {[ (0, 0)%Z ]} 0 in
  let s2 := Sentence.mk {[ (0, 0)%Z ]} 1 in
  Sentence.cells s1 = Sentence.cells s2 ∧ Sentence.eq s1 s2 = false.
Proof. done. Qed.

(** C7, amended.  Two sentences are equal if and only if their cell sets are
    equal and their counts are equal. *)
Theorem sentence_eq_cells_and_count s o :
  Sentence.eq s o = true
  ↔ Sentence.cells s = Sentence.cells o ∧ Sentence.count s = Sentence.count o.
Proof.
  unfold Sentence.eq. by rewrite andb_true_iff, !bool_decide_eq_true.
Qed.

(** C8, as stated, fails: after [mark_mine] and [mark_safe] of the same cell
    on a fresh knowledge base, [make_safe_move] returns that cell, a confirmed
    mine. *)
Lemma make_safe_move_returns_mine :
  let ai := MinesweeperAI.mark_safe (MinesweeperAI.mark_mine (MinesweeperAI.init 8 8) (0, 0)%Z)
                                    (0, 0)%Z in
  reachable ai
  ∧ (MinesweeperAI.make_safe_move ai).1 = Some (0, 0)%Z
  ∧ (0, 0)%Z ∈ MinesweeperAI.mines ai.
Proof.
  intros ai. split_and!.
  - apply reachable_mark_safe, reachable_mark_mine, reachable_init.
  - vm_compute. reflexivity.
  - compute_done.
Qed.

(** C8, amended.  For every state of the knowledge base, [make_safe_move]
    leaves the state as it is; it returns nothing exactly when every confirmed
    safe cell has been played, and otherwise a confirmed safe cell that has
    not been played.  That cell is no confirmed mine provided no cell is both
    confirmed safe and confirmed mine, which the knowledge base itself does
    not ensure. *)
Theorem make_safe_move_spec ai :
  (MinesweeperAI.make_safe_move ai).2 = ai
  ∧ ((MinesweeperAI.make_safe_move ai).1 = None
     ↔ MinesweeperAI.safes ai ∖ MinesweeperAI.moves_made ai = ∅)
  ∧ ∀ cell, (MinesweeperAI.make_safe_move ai).1 = Some cell →
            cell ∈ MinesweeperAI.safes ai ∖ MinesweeperAI.moves_made ai
            ∧ (cell ∉ MinesweeperAI.moves_made ai)
            ∧ (MinesweeperAI.safes ai ∩ MinesweeperAI.mines ai = ∅ →
               cell ∉ MinesweeperAI.mines ai).
Proof.
  unfold MinesweeperAI.make_safe_move. simpl. split_and!; [done | |].
  - rewrite head_None. split.
    + by intros ?%elements_empty_inv%leibniz_equiv.
    + intros ->. apply elements_empty.
  - intros cell Hc%head_Some_elem_of%elem_of_elements. set_solver.
Qed.

Lemma make_safe_move_spec_witness :
  let ai := MinesweeperAI.mark_safe (MinesweeperAI.init 3 3) (1, 1)%Z in
  (MinesweeperAI.make_safe_move ai).1 = Some (1, 1)%Z
  ∧ (1, 1)%Z ∈ MinesweeperAI.safes ai ∖ MinesweeperAI.moves_made ai
  ∧ ((1, 1)%Z ∉ MinesweeperAI.moves_made ai)
  ∧ ((1, 1)%Z ∉ MinesweeperAI.mines ai).
Proof.
  intros ai.
  assert ((MinesweeperAI.make_safe_move ai).1 = Some (1, 1)%Z) as Hmove
    by (vm_compute; reflexivity).
  split; [exact Hmove|].
  destruct (proj2 (proj2 (make_safe_move_spec ai)) (1, 1)%Z Hmove) as (Hin & Hnot & Hmine).
  split_and!; [exact Hin | exact Hnot | apply Hmine; vm_compute; reflexivity].
Defined.

(** C9.  A sentence with count 0 knows all its cells to be safe and none to be
    a mine; a sentence with at least one cell whose count is the number of its
    cells knows all its cells to be mines and none to be safe. *)
Theorem known_cells s :
  (Sentence.count s = 0%Z →
   Sentence.known_safes s = Sentence.cells s ∧ Sentence.known_mines s = ∅)
  ∧ (Sentence.cells s ≠ ∅ → Sentence.count s = Z.of_nat (size (Sentence.cells s)) →
     Sentence.known_mines s = Sentence.cells s ∧ Sentence.known_safes s = ∅).
Proof.
  unfold Sentence.known_safes, Sentence.known_mines. split.
  - intros H0. rewrite (bool_decide_eq_true_2 _ H0). split; [done|].
    case_bool_decide as Hsz; [|done].
    assert (size (Sentence.cells s) = 0) as Hz by lia.
    by apply size_empty_iff, leibniz_equiv in Hz.
  - intros Hne Hn. rewrite (bool_decide_eq_true_2 (Z.of_nat _ = _)) by done.
    split; [done|]. case_bool_decide as H0; [|done].
    assert (size (Sentence.cells s) = 0) as Hz by lia.
    by apply size_empty_iff, leibniz_equiv in Hz.
Qed.

Lemma known_cells_witness :
  let s0 := Sentence.mk {[ (0, 1)%Z; (1, 1)%Z ]} 0 in
  let s2 := Sentence.mk {[ (0, 1)%Z; (1, 1)%Z ]} 2 in
  (Sentence.known_safes s0 = Sentence.cells s0 ∧ Sentence.known_mines s0 = ∅)
  ∧ (Sentence.known_mines s2 = Sentence.cells s2 ∧ Sentence.known_safes s2 = ∅).
Proof.
  intros s0 s2. split.
  - apply (proj1 (known_cells s0)). reflexivity.
  - apply (proj2 (known_cells s2)).
    + vm_compute. discriminate.
    + vm_compute. reflexivity.
Defined.

(** C10.  In every state that the public operations [mark_mine], [mark_safe]
    and [add_knowledge] produce from a fresh knowledge base, no held sentence
    mentions a cell that is a confirmed mine or a confirmed safe cell. *)
Theorem sentences_avoid_settled_cells ai :
  reachable ai →
  ∀ s, s ∈ MinesweeperAI.knowledge ai →
       Sentence.cells s ## MinesweeperAI.mines ai ∪ MinesweeperAI.safes ai.
Proof.
  intros Hreach. apply Forall_forall. change (pruned ai).
  induction Hreach as [h w|ai cell _ IH|ai cell _ IH|ai fuel cell n ai' _ IH Hadd].
  - apply pruned_init.
  - by apply pruned_mark_mine.
  - by apply pruned_mark_safe.
  - eapply (loop_carried pruned); [apply carried_pruned | | exact Hadd].
    by apply pruned_add_sentence.
Qed.

Lemma sentences_avoid_settled_cells_witness :
  ∃ ai, MinesweeperAI.add_knowledge 2 (MinesweeperAI.mark_mine (MinesweeperAI.init 3 3) (0, 0)%Z)
                                    (1, 1)%Z 2 = Returns ai
        ∧ length (MinesweeperAI.knowledge ai) = 1
        ∧ ∀ s, s ∈ MinesweeperAI.knowledge ai →
               Sentence.cells s ## MinesweeperAI.mines ai ∪ MinesweeperAI.safes ai.
Proof.
  eexists. split; [vm_compute; reflexivity|]. split; [reflexivity|].
  apply sentences_avoid_settled_cells.
  apply (reachable_add_knowledge
           (MinesweeperAI.mark_mine (MinesweeperAI.init 3 3) (0, 0)%Z) 2 (1, 1)%Z 2).
  - apply reachable_mark_mine, reachable_init.
  - vm_compute. reflexivity.
Defined.

(** * Further properties of the code *)

(** ** Marking, in closed form *)

Section marking_closed.
Import MinesweeperAI.
Implicit Types (ai a : MinesweeperAI.t) (s : Sentence.t) (c cell : Cell).

Lemma mark_safe_eq s c :
  Sentence.mark_safe s c = Sentence.mk (Sentence.cells s ∖ {[c]}) (Sentence.count s).
Proof.
  unfold Sentence.mark_safe. case_bool_decide as Hc; [done|].
  destruct s as [cs n]. simpl in *. f_equal. set_solver.
Qed.

Lemma mark_mine_eq s c :
  Sentence.mark_mine s c
  = Sentence.mk (Sentence.cells s ∖ {[c]})
                (Sentence.count s - (if bool_decide (c ∈ Sentence.cells s) then 1 else 0)).
Proof.
  unfold Sentence.mark_mine. case_bool_decide as Hc; [done|].
  destruct s as [cs n]. simpl in *. f_equal; [set_solver | lia].
Qed.

Lemma count_foldl_mark_safe s cs :
  Sentence.count (foldl Sentence.mark_safe s cs) = Sentence.count s.
Proof.
  revert s. induction cs as [|c cs IH]; intros s; simpl; [done|].
  by rewrite IH, count_mark_safe.
Qed.

Lemma count_foldl_mark_mine s cs :
  NoDup cs →
  Sentence.count (foldl Sentence.mark_mine s cs)
  = (Sentence.count s - Z.of_nat (size (Sentence.cells s ∩ list_to_set cs)))%Z.
Proof.
  intros Hnd. revert s. induction Hnd as [|c cs Hc _ IH]; intros s; simpl.
  - replace (Sentence.cells s ∩ ∅) with (∅ : gset Cell) by set_solver.
    rewrite size_empty. lia.
  - rewrite IH, mark_mine_eq. simpl.
    assert ((Sentence.cells s ∖ {[c]}) ∩ list_to_set cs
            = (Sentence.cells s ∩ list_to_set cs : gset Cell)) as ->.
    { apply set_eq. intros x. rewrite !elem_of_intersection, elem_of_difference,
        elem_of_list_to_set, elem_of_singleton. naive_solver. }
    case_bool_decide as Hin.
    + assert (Sentence.cells s ∩ ({[c]} ∪ list_to_set cs)
              = ({[c]} ∪ Sentence.cells s ∩ list_to_set cs : gset Cell)) as ->
        by set_solver.
      pose proof (size_union (C:=gset Cell) {[c]}
                    (Sentence.cells s ∩ list_to_set cs)) as Hsz.
      rewrite Hsz, size_singleton; [lia|].
      apply disjoint_singleton_l. rewrite elem_of_intersection, elem_of_list_to_set. tauto.
    + assert (Sentence.cells s ∩ ({[c]} ∪ list_to_set cs)
              = (Sentence.cells s ∩ list_to_set cs : gset Cell)) as -> by set_solver.
      lia.
Qed.

(** The object after a run of [mark_safe] calls, and after a run of
    [mark_mine] calls. *)
Lemma foldl_mark_safe_eq a cs :
  foldl mark_safe a cs
  = {| height := height a; width := width a; moves_made := moves_made a;
       mines := mines a; safes := list_to_set cs ∪ safes a;
       knowledge := (λ s, foldl Sentence.mark_safe s cs) <$> knowledge a |}.
Proof.
  revert a. induction cs as [|c cs IH]; intros a; simpl.
  - destruct a as [h w mm mi sa k]. simpl. f_equal; [set_solver|].
    by rewrite list_fmap_id.
  - rewrite IH. simpl. f_equal; [set_solver|]. by rewrite <-list_fmap_compose.
Qed.

Lemma foldl_mark_mine_eq a cs :
  foldl mark_mine a cs
  = {| height := height a; width := width a; moves_made := moves_made a;
       mines := list_to_set cs ∪ mines a; safes := safes a;
       knowledge := (λ s, foldl Sentence.mark_mine s cs) <$> knowledge a |}.
Proof.
  revert a. induction cs as [|c cs IH]; intros a; simpl.
  - destruct a as [h w mm mi sa k]. simpl. f_equal; [set_solver|].
    by rewrite list_fmap_id.
  - rewrite IH. simpl. f_equal; [set_solver|]. by rewrite <-list_fmap_compose.
Qed.

Lemma foldl_sentence_mark_safe_eq s cs :
  foldl Sentence.mark_safe s cs
  = Sentence.mk (Sentence.cells s ∖ list_to_set cs) (Sentence.count s).
Proof.
  pose proof (cells_foldl_mark_safe s cs) as Hc.
  pose proof (count_foldl_mark_safe s cs) as Hn.
  destruct (foldl Sentence.mark_safe s cs). simpl in *. by subst.
Qed.

Lemma foldl_sentence_mark_mine_perm s cs cs' :
  cs ≡ₚ cs' → foldl Sentence.mark_mine s cs = foldl Sentence.mark_mine s cs'.
Proof.
  intros Hp. revert s.
  induction Hp as [|c cs cs' _ IH|c1 c2 cs|cs1 cs2 cs3 _ IH1 _ IH2]; intros s; simpl.
  - done.
  - apply IH.
  - f_equal. rewrite !mark_mine_eq. simpl. f_equal; [set_solver|].
    destruct (decide (c1 = c2)) as [->|Hne]; [done|].
    repeat case_bool_decide; first [lia | exfalso; set_solver].
  - by rewrite IH1.
Qed.

Lemma mark_known_fields a cs1 cs2 :
  safes (mark_known a cs1 cs2) = list_to_set cs1 ∪ safes a
  ∧ mines (mark_known a cs1 cs2) = list_to_set cs2 ∪ mines a
  ∧ moves_made (mark_known a cs1 cs2) = moves_made a.
Proof. unfold mark_known. by rewrite foldl_mark_mine_eq, foldl_mark_safe_eq. Qed.

End marking_closed.

(** ** Sentences: marking and knowing *)

Lemma known_mines_known_safes_apart_aux (s : Sentence.t) :
  Sentence.known_safes s ∩ Sentence.known_mines s = ∅.
Proof.
  destruct (decide (Sentence.known_safes s = ∅)) as [->|Hne]; [set_solver|].
  rewrite (known_safes_known_mines s Hne). set_solver.
Qed.

(** X1.  Marking keeps a sentence true: if a sentence is true of a mine
    placement, it still is after [mark_safe] of a cell that holds no mine and
    after [mark_mine] of a cell that holds one. *)
Theorem marking_keeps_truth M s c :
  true_of M s →
  (c ∉ M → true_of M (Sentence.mark_safe s c))
  ∧ (c ∈ M → true_of M (Sentence.mark_mine s c)).
Proof.
  intros Hs. split; intros Hc; [by apply true_of_mark_safe | by apply true_of_mark_mine].
Qed.

Lemma marking_keeps_truth_witness :
  let M : gset Cell := {[ (0, 0)%Z ]} in
  let s := Sentence.mk {[ (0, 0); (0, 1) ]}%Z 1 in
  true_of M (Sentence.mark_safe s (0, 1)%Z) ∧ true_of M (Sentence.mark_mine s (0, 0)%Z).
Proof.
  intros M s. split.
  - apply (proj1 (marking_keeps_truth M s (0, 1)%Z ltac:(vm_compute; reflexivity))).
    vm_compute. discriminate.
  - apply (proj2 (marking_keeps_truth M s (0, 0)%Z ltac:(vm_compute; reflexivity))).
    vm_compute. reflexivity.
Defined.

(** X2.  What a true sentence knows is right: if a sentence is true of a mine
    placement, none of its [known_safes] holds a mine and all of its
    [known_mines] do. *)
Theorem known_cells_are_right M s :
  true_of M s →
  Sentence.known_safes s ∩ M = ∅ ∧ Sentence.known_mines s ⊆ M.
Proof.
  intros Hs. pose proof (known_safes_true M s Hs). pose proof (known_mines_true M s Hs).
  split; [set_solver | done].
Qed.

Lemma known_cells_are_right_witness :
  let M : gset Cell := {[ (0, 0); (0, 1) ]}%Z in
  let s := Sentence.mk {[ (0, 0); (0, 1) ]}%Z 2 in
  Sentence.known_mines s = Sentence.cells s
  ∧ Sentence.known_safes s ∩ M = ∅ ∧ Sentence.known_mines s ⊆ M.
Proof.
  intros M s. split; [vm_compute; reflexivity|].
  apply (known_cells_are_right M s). vm_compute. reflexivity.
Defined.

(** X3.  A sentence never reports a cell both as a known mine and as a known
    safe cell, whatever its count (negative or too large included), and it
    reports only cells of its own. *)
Theorem known_mines_known_safes_apart s :
  Sentence.known_safes s ∩ Sentence.known_mines s = ∅
  ∧ Sentence.known_safes s ⊆ Sentence.cells s
  ∧ Sentence.known_mines s ⊆ Sentence.cells s.
Proof.
  split_and!; [|apply known_safes_subseteq|apply known_mines_subseteq].
  destruct (decide (Sentence.known_safes s = ∅)) as [->|Hne]; [set_solver|].
  rewrite (known_safes_known_mines s Hne). set_solver.
Qed.

(** X4.  Marking composes as one expects of sets: a second [mark_safe] or
    [mark_mine] of the same cell changes nothing (the count is decremented
    once only), two [mark_safe] calls commute, two [mark_mine] calls commute,
    and a [mark_safe] commutes with a [mark_mine] of another cell. *)
Theorem marking_composes s c1 c2 :
  Sentence.mark_safe (Sentence.mark_safe s c1) c1 = Sentence.mark_safe s c1
  ∧ Sentence.mark_mine (Sentence.mark_mine s c1) c1 = Sentence.mark_mine s c1
  ∧ Sentence.mark_safe (Sentence.mark_safe s c1) c2
    = Sentence.mark_safe (Sentence.mark_safe s c2) c1
  ∧ Sentence.mark_mine (Sentence.mark_mine s c1) c2
    = Sentence.mark_mine (Sentence.mark_mine s c2) c1
  ∧ (c1 ≠ c2 →
     Sentence.mark_mine (Sentence.mark_safe s c1) c2
     = Sentence.mark_safe (Sentence.mark_mine s c2) c1).
Proof.
  split_and!.
  - apply mark_safe_absent. rewrite cells_mark_safe. set_solver.
  - apply mark_mine_absent. rewrite cells_mark_mine. set_solver.
  - rewrite !mark_safe_eq. simpl. f_equal. set_solver.
  - apply (foldl_sentence_mark_mine_perm s [c1; c2] [c2; c1]). apply Permutation_swap.
  - intros Hne. rewrite !mark_safe_eq, !mark_mine_eq. simpl. f_equal; [set_solver|].
    repeat case_bool_decide; first [lia | exfalso; set_solver].
Qed.

Lemma marking_composes_witness :
  let s := Sentence.mk {[ (0, 0); (0, 1); (1, 1) ]}%Z 2 in
  Sentence.mark_mine (Sentence.mark_safe s (0, 0)%Z) (0, 1)%Z
  = Sentence.mark_safe (Sentence.mark_mine s (0, 1)%Z) (0, 0)%Z.
Proof.
  intros s.
  apply (proj2 (proj2 (proj2 (proj2 (marking_composes s (0, 0)%Z (0, 1)%Z))))).
  discriminate.
Defined.

(** ** The knowledge base: marking *)

(** X5.  The two marking loops of a pass give the same knowledge base in
    whatever order the cells are visited: [mark_known] depends on the cells
    to mark, not on their order in the tuples taken from the sets. *)
Theorem marking_order_irrelevant ai cs1 cs1' cs2 cs2' :
  cs1 ≡ₚ cs1' → cs2 ≡ₚ cs2' →
  MinesweeperAI.mark_known ai cs1 cs2 = MinesweeperAI.mark_known ai cs1' cs2'.
Proof.
  intros H1 H2. unfold MinesweeperAI.mark_known.
  assert (foldl MinesweeperAI.mark_safe ai cs1 = foldl MinesweeperAI.mark_safe ai cs1') as ->.
  { rewrite !foldl_mark_safe_eq.
    assert (list_to_set cs1 = (list_to_set cs1' : gset Cell)) as Hset.
    { apply set_eq. intros c. rewrite !elem_of_list_to_set. by rewrite H1. }
    rewrite Hset. f_equal. apply list_fmap_ext. intros i s _.
    by rewrite !foldl_sentence_mark_safe_eq, Hset. }
  rewrite !foldl_mark_mine_eq.
  assert (list_to_set cs2 = (list_to_set cs2' : gset Cell)) as Hset.
  { apply set_eq. intros c. rewrite !elem_of_list_to_set. by rewrite H2. }
  rewrite Hset. f_equal. apply list_fmap_ext. intros i s _.
  by apply foldl_sentence_mark_mine_perm.
Qed.

Lemma marking_order_irrelevant_witness :
  let ai := MinesweeperAI.set_knowledge (MinesweeperAI.init 3 3)
              [Sentence.mk {[ (0, 0); (0, 1); (1, 1) ]}%Z 2] in
  MinesweeperAI.mark_known ai [(0, 0); (0, 1)]%Z [(1, 1); (2, 2)]%Z
  = MinesweeperAI.mark_known ai [(0, 1); (0, 0)]%Z [(2, 2); (1, 1)]%Z.
Proof.
  intros ai. apply marking_order_irrelevant; apply Permutation_swap.
Defined.

(** ** The knowledge base: [add_knowledge] *)

Section add_knowledge_facts.
Import MinesweeperAI.
Implicit Types (ai a : MinesweeperAI.t) (s : Sentence.t) (c cell : Cell).

Lemma count_pruned_sentence ai cell n :
  Sentence.count (pruned_sentence ai cell n)
  = (n - Z.of_nat (size (list_to_set (neighbours ai cell)
                         ∩ (mines ai ∖ ({[cell]} ∪ safes ai)))))%Z.
Proof.
  unfold pruned_sentence.
  rewrite count_foldl_mark_mine by apply NoDup_elements.
  rewrite count_foldl_mark_safe, cells_foldl_mark_safe, !list_to_set_elements_L. simpl.
  do 3 f_equal. set_solver.
Qed.

Lemma length_neighbours ai cell : length (neighbours ai cell) ≤ 8.
Proof.
  unfold neighbours, range.
  replace (Z.to_nat (cell.1 + 2 - (cell.1 - 1))) with 3 by lia.
  replace (Z.to_nat (cell.2 + 2 - (cell.2 - 1))) with 3 by lia.
  cbn [seq fmap list_fmap mbind list_bind app].
  rewrite !length_app.
  assert (∀ (b : bool) (c : Cell), length (if b then [c] else []) ≤ 1) as Hone
    by (intros [] c; simpl; lia).
  repeat match goal with
         | |- context [length (if bool_decide ?P then [?c] else [])] =>
             let Hc := fresh in
             first [ assert (¬ P) as Hc by lia;
                     rewrite (bool_decide_eq_false_2 P Hc); clear Hc
                   | pose proof (Hone (bool_decide P) c) as Hc;
                     generalize dependent (length (if bool_decide P then [c] else []));
                     intros ? Hc ]
         end.
  cbn [length]. lia.
Qed.

Lemma examine_done ai rs d i ai' rs' :
  examine (ai, rs, d) i = (ai', rs', true) →
  d = true ∧ ai' = ai ∧ rs' = rs
  ∧ ∀ s, knowledge ai !! i = Some s → undecided s.
Proof.
  destruct (knowledge ai !! i) as [s|] eqn:Hi.
  - destruct (decide (Sentence.known_safes s ∪ Sentence.known_mines s = ∅)) as [Hk|Hk].
    + rewrite (examine_unknown _ _ _ _ _ Hi Hk). case_bool_decide as Hv; [done|].
      intros [= <- <- ->]. split_and!; try done. intros s' [= <-].
      unfold undecided, vacant in *. split_and!; [done | |].
      * intros H0. apply Hv. unfold Sentence.known_safes in Hk.
        rewrite bool_decide_eq_true_2 in Hk by done. set_solver.
      * intros Hn. apply Hv. unfold Sentence.known_mines in Hk.
        rewrite bool_decide_eq_true_2 in Hk by done. set_solver.
    + by rewrite (examine_known _ _ _ _ _ Hi Hk).
  - unfold examine. rewrite Hi. intros [= <- <- ->]. done.
Qed.

Lemma foldl_examine_done idxs ai rs d ai' rs' :
  foldl examine (ai, rs, d) idxs = (ai', rs', true) →
  d = true ∧ ai' = ai ∧ rs' = rs
  ∧ ∀ i s, i ∈ idxs → knowledge ai !! i = Some s → undecided s.
Proof.
  revert ai rs d. induction idxs as [|i idxs IH]; intros ai rs d Hf.
  { injection Hf as <- <- ->. split_and!; try done. intros i s Hi. by apply elem_of_nil in Hi. }
  cbn [foldl] in Hf. destruct (examine (ai, rs, d) i) as [[a1 r1] d1] eqn:Hex.
  apply IH in Hf as (-> & -> & -> & Hrest).
  apply examine_done in Hex as (-> & -> & -> & Hhere).
  split_and!; try done. intros j s [->|Hj]%elem_of_cons Hs; [eauto | eauto].
Qed.

Lemma pass_done ai ai2 :
  pass ai = Returns (ai2, true) → ai2 = ai ∧ Forall undecided (knowledge ai).
Proof.
  intros Hpass.
  destruct (pass_cases ai) as (ai2' & d & Hpass' & _ & Htrue & _).
  rewrite Hpass in Hpass'. injection Hpass' as <- <-.
  destruct (Htrue eq_refl) as (-> & _ & _). split; [done|].
  unfold pass, resolve in Hpass.
  destruct (foldl examine _ _) as [[a1 rs] d1] eqn:Hfold.
  destruct (remove_each _ _) as [k| |]; simpl in Hpass; [|done|done].
  injection Hpass as _ Hd. apply andb_true_iff in Hd as [-> _].
  apply foldl_examine_done in Hfold as (_ & _ & _ & Hall).
  apply Forall_forall. intros s (i & Hi)%list_elem_of_lookup.
  apply (Hall i s); [|done]. apply elem_of_seq. apply lookup_lt_Some in Hi. lia.
Qed.

Lemma loop_fixpoint fuel ai ai' :
  loop fuel ai = Returns ai' →
  pass ai' = Returns (ai', true) ∧ Forall undecided (knowledge ai').
Proof.
  revert ai. induction fuel as [|fuel IH]; intros ai Hl; [done|].
  simpl in Hl. destruct (pass ai) as [[ai2 d]| |] eqn:Hpass; simpl in Hl; [|done|done].
  destruct d; [|by eapply IH]. injection Hl as <-.
  destruct (pass_done _ _ Hpass) as [-> Hund]. done.
Qed.

End add_knowledge_facts.

(** X6.  The first lines of [add_knowledge], before the loop: the cell is
    recorded as played and as safe, it leaves every held sentence, and one
    sentence is appended.  That sentence mentions the neighbours that are
    neither confirmed safe (the cell itself included) nor confirmed mines, and
    its count is the hint less the neighbours that are confirmed mines and not
    confirmed safe. *)
Theorem add_knowledge_new_sentence ai cell n :
  let ai1 := MinesweeperAI.add_sentence ai cell n in
  let around : gset Cell := list_to_set (MinesweeperAI.neighbours ai cell) in
  let settled_safe := {[cell]} ∪ MinesweeperAI.safes ai in
  MinesweeperAI.moves_made ai1 = {[cell]} ∪ MinesweeperAI.moves_made ai
  ∧ MinesweeperAI.safes ai1 = settled_safe
  ∧ MinesweeperAI.mines ai1 = MinesweeperAI.mines ai
  ∧ ∃ new,
      MinesweeperAI.knowledge ai1
      = ((λ s, Sentence.mark_safe s cell) <$> MinesweeperAI.knowledge ai) ++ [new]
      ∧ Sentence.cells new = around ∖ settled_safe ∖ MinesweeperAI.mines ai
      ∧ Sentence.count new
        = (n - Z.of_nat (size (around ∩ (MinesweeperAI.mines ai ∖ settled_safe))))%Z.
Proof.
  intros ai1 around settled_safe. unfold ai1. rewrite add_sentence_spec. simpl.
  split_and!; try done. exists (pruned_sentence ai cell n).
  split_and!; [done | apply cells_pruned_sentence | apply count_pruned_sentence].
Qed.

(** X7.  The neighbours that [add_knowledge] computes are exactly the cells of
    the board next to the given cell, in a row or column at most one away and
    other than the cell itself; none is listed twice and there are at most
    eight. *)
Theorem neighbours_spec ai cell :
  (∀ c, c ∈ MinesweeperAI.neighbours ai cell ↔
        ((cell.1 - 1 ≤ c.1 ∧ c.1 ≤ cell.1 + 1)%Z ∧ (cell.2 - 1 ≤ c.2 ∧ c.2 ≤ cell.2 + 1)%Z)
        ∧ c ≠ cell
        ∧ on_board (MinesweeperAI.height ai) (MinesweeperAI.width ai) c)
  ∧ NoDup (MinesweeperAI.neighbours ai cell)
  ∧ length (MinesweeperAI.neighbours ai cell) ≤ 8.
Proof.
  split_and!.
  - intros c. apply elem_of_neighbours.
  - apply NoDup_neighbours.
  - apply length_neighbours.
Qed.

(** X8.  [add_knowledge] only adds to what is known: when it returns, the
    cell is a move made and a confirmed safe cell, every cell that was a
    confirmed safe cell or a confirmed mine still is, no other move is
    recorded, and the dimensions are those of before. *)
Theorem add_knowledge_only_grows fuel ai cell n ai' :
  MinesweeperAI.add_knowledge fuel ai cell n = Returns ai' →
  MinesweeperAI.moves_made ai' = {[cell]} ∪ MinesweeperAI.moves_made ai
  ∧ {[cell]} ∪ MinesweeperAI.safes ai ⊆ MinesweeperAI.safes ai'
  ∧ MinesweeperAI.mines ai ⊆ MinesweeperAI.mines ai'
  ∧ MinesweeperAI.height ai' = MinesweeperAI.height ai
  ∧ MinesweeperAI.width ai' = MinesweeperAI.width ai.
Proof.
  intros Hadd.
  destruct (add_knowledge_frame _ _ _ _ _ Hadd) as (? & ? & ?).
  destruct (add_knowledge_grows _ _ _ _ _ Hadd) as (? & ?). done.
Qed.

Lemma add_knowledge_only_grows_witness :
  ∃ ai', MinesweeperAI.add_knowledge 2 (MinesweeperAI.init 3 3) (0, 0)%Z 0 = Returns ai'
         ∧ MinesweeperAI.moves_made ai' = {[ (0, 0)%Z ]} ∪ ∅
         ∧ {[ (0, 0)%Z ]} ∪ ∅ ⊆ MinesweeperAI.safes ai'
         ∧ ∅ ⊆ MinesweeperAI.mines ai'
         ∧ MinesweeperAI.height ai' = 3%Z
         ∧ MinesweeperAI.width ai' = 3%Z.
Proof.
  eexists. split; [vm_compute; reflexivity|].
  apply (add_knowledge_only_grows 2 (MinesweeperAI.init 3 3) (0, 0)%Z 0).
  vm_compute. reflexivity.
Defined.

(** X9.  Played with valid hints, the knowledge base is never wrong: after
    any sequence of hints that are valid for a mine placement, every
    confirmed mine holds a mine, no confirmed safe cell does, and every held
    sentence counts exactly the mines among its cells. *)
Theorem valid_play_is_sound h w M hints fuel ai :
  Forall (valid_hint h w M) hints →
  play fuel (MinesweeperAI.init h w) hints = Returns ai →
  MinesweeperAI.mines ai ⊆ M
  ∧ MinesweeperAI.safes ai ∩ M = ∅
  ∧ ∀ s, s ∈ MinesweeperAI.knowledge ai →
         Sentence.count s = Z.of_nat (size (Sentence.cells s ∩ M)).
Proof.
  intros Hvalid Hplay.
  destruct (play_sound M fuel (MinesweeperAI.init h w) hints ai) as (Hm & Hs & Hk);
    [apply sound_init | done | done |].
  split_and!; [done | set_solver | by apply Forall_forall].
Qed.

Lemma valid_play_is_sound_witness :
  let M : gset Cell := {[ (2, 2)%Z ]} in
  ∃ ai, play 3 (MinesweeperAI.init 3 3) [((0, 0), 0); ((1, 1), 1); ((0, 2), 0)]%Z = Returns ai
        ∧ length (MinesweeperAI.knowledge ai) = 1
        ∧ MinesweeperAI.mines ai ⊆ M
        ∧ MinesweeperAI.safes ai ∩ M = ∅
        ∧ ∀ s, s ∈ MinesweeperAI.knowledge ai →
               Sentence.count s = Z.of_nat (size (Sentence.cells s ∩ M)).
Proof.
  intros M. eexists. split; [vm_compute; reflexivity|]. split; [vm_compute; reflexivity|].
  apply (valid_play_is_sound 3 3 M [((0, 0), 0); ((1, 1), 1); ((0, 2), 0)]%Z 3).
  - repeat constructor; try done; vm_compute; done.
  - vm_compute. reflexivity.
Defined.

(** X10.  [add_knowledge] returns at a fixpoint of its two rules: a further
    pass over the state it returns changes nothing, and every held sentence
    is undecided, with at least one cell, no known safe cell and no known
    mine. *)
Theorem add_knowledge_fixpoint fuel ai cell n ai' :
  MinesweeperAI.add_knowledge fuel ai cell n = Returns ai' →
  MinesweeperAI.pass ai' = Returns (ai', true)
  ∧ ∀ s, s ∈ MinesweeperAI.knowledge ai' →
         Sentence.cells s ≠ ∅ ∧ Sentence.known_safes s = ∅ ∧ Sentence.known_mines s = ∅.
Proof.
  intros Hadd. apply loop_fixpoint in Hadd as [Hpass Hund]. split; [done|].
  intros s Hs. rewrite Forall_forall in Hund. destruct (Hund s Hs) as (Hne & H0 & Hn).
  unfold Sentence.known_safes, Sentence.known_mines.
  rewrite !bool_decide_eq_false_2 by done. done.
Qed.

Lemma add_knowledge_fixpoint_witness :
  ∃ ai', MinesweeperAI.add_knowledge 1 (MinesweeperAI.init 3 3) (1, 1)%Z 1 = Returns ai'
         ∧ length (MinesweeperAI.knowledge ai') = 1
         ∧ MinesweeperAI.pass ai' = Returns (ai', true)
         ∧ ∀ s, s ∈ MinesweeperAI.knowledge ai' →
                Sentence.cells s ≠ ∅ ∧ Sentence.known_safes s = ∅
                ∧ Sentence.known_mines s = ∅.
Proof.
  eexists. split; [vm_compute; reflexivity|]. split; [reflexivity|].
  apply (add_knowledge_fixpoint 1 (MinesweeperAI.init 3 3) (1, 1)%Z 1).
  vm_compute. reflexivity.
Defined.

Section valid_play.
Import MinesweeperAI.
Implicit Types (ai a : MinesweeperAI.t) (s : Sentence.t) (c cell : Cell).

Lemma play_undecided fuel ai hints ai' :
  Forall undecided (knowledge ai) → play fuel ai hints = Returns ai' →
  Forall undecided (knowledge ai').
Proof.
  revert ai. induction hints as [|[cell n] hints IH]; intros ai Hai Hp.
  { by injection Hp as <-. }
  simpl in Hp. destruct (add_knowledge fuel ai cell n) as [ai1| |] eqn:Hadd; [|done|done].
  simpl in Hp. apply (IH ai1); [|done]. by apply loop_fixpoint in Hadd as [_ ?].
Qed.

Lemma carried_within B : carried (within B).
Proof.
  split.
  - intros a s Ha Hs c.
    destruct (mark_known_fields a (elements (Sentence.known_safes s))
                (elements (Sentence.known_mines s))) as (-> & -> & _).
    rewrite covered_mark_known, !list_to_set_elements_L. intros Hc. apply Ha.
    pose proof (known_safes_subseteq s). pose proof (known_mines_subseteq s).
    assert (Sentence.cells s ⊆ covered (knowledge a)) as Hin.
    { intros x Hx. apply elem_of_covered. eauto. }
    set_solver.
  - intros a k Ha Hsub c Hc. apply Ha. simpl in Hc.
    apply covered_sublist in Hsub. set_solver.
  - intros a Ha c Hc. apply Ha. simpl in Hc.
    rewrite !elem_of_union in Hc. destruct Hc as [?|Hc]; [set_solver|].
    apply elem_of_covered in Hc as (s & [Hs|(p & -> & Hp)%list_elem_of_fmap]%elem_of_app & Hc).
    + rewrite !elem_of_union, elem_of_covered. eauto.
    + rewrite cells_difference in Hc. apply subset_pairs_inv in Hp as (_ & Hb & _).
      rewrite !elem_of_union, elem_of_covered. right. exists p.2. set_solver.
Qed.

Lemma play_within fuel ai hints ai' :
  within (on_board (height ai) (width ai)) ai →
  Forall (λ hint : Cell * Z, on_board (height ai) (width ai) hint.1) hints →
  play fuel ai hints = Returns ai' →
  within (on_board (height ai) (width ai)) ai'.
Proof.
  revert ai. induction hints as [|[cell n] hints IH]; intros ai Hai Hon Hp.
  { by injection Hp as <-. }
  inversion_clear Hon as [|?? Hcell Hon']. simpl in Hp, Hcell.
  destruct (add_knowledge fuel ai cell n) as [ai1| |] eqn:Hadd; [|done|done].
  simpl in Hp. destruct (add_knowledge_frame _ _ _ _ _ Hadd) as (_ & Hh & Hw).
  rewrite <-Hh, <-Hw. apply (IH ai1); [|by rewrite Hh, Hw|done].
  rewrite Hh, Hw.
  eapply (loop_carried _ _ _ _ (carried_within _)); [|exact Hadd].
  rewrite add_sentence_spec. intros c. simpl.
  rewrite !elem_of_union, elem_of_covered. intros [[[Heq|Hc]|Hc]|Hc].
  - apply elem_of_singleton in Heq as ->. done.
  - apply Hai. set_solver.
  - apply Hai. set_solver.
  - destruct Hc as (s & [(s0 & -> & Hs0)%list_elem_of_fmap|Hnew]%elem_of_app & Hc);
      [|apply list_elem_of_singleton in Hnew as ->].
    + apply Hai. rewrite cells_mark_safe in Hc.
      rewrite !elem_of_union, elem_of_covered. right. exists s0. set_solver.
    + rewrite cells_pruned_sentence in Hc.
      assert (c ∈ neighbours ai cell) as Hn by set_solver.
      by apply elem_of_neighbours in Hn as (_ & _ & ?).
Qed.

End valid_play.

(** X11.  Played with valid hints, every sentence that is held when
    [add_knowledge] has returned is a real unknown: its count is at least one
    and less than the number of its cells, so that it has at least two
    cells. *)
Theorem held_sentences_are_open h w M hints fuel ai :
  Forall (valid_hint h w M) hints →
  play fuel (MinesweeperAI.init h w) hints = Returns ai →
  ∀ s, s ∈ MinesweeperAI.knowledge ai →
       (0 < Sentence.count s ∧ Sentence.count s < Z.of_nat (size (Sentence.cells s)))%Z
       ∧ 2 ≤ size (Sentence.cells s).
Proof.
  intros Hvalid Hplay s Hs.
  destruct (play_sound M fuel (MinesweeperAI.init h w) hints ai) as (_ & _ & Hk);
    [apply sound_init | done | done |].
  rewrite Forall_forall in Hk. specialize (Hk s Hs). unfold true_of in Hk.
  pose proof (play_undecided fuel (MinesweeperAI.init h w) hints ai
                (Forall_nil_2 _) Hplay) as Hund.
  rewrite Forall_forall in Hund. destruct (Hund s Hs) as (_ & H0 & Hn).
  assert (size (Sentence.cells s ∩ M) ≤ size (Sentence.cells s)) as Hle
    by apply subseteq_size, intersection_subseteq_l.
  lia.
Qed.

Lemma held_sentences_are_open_witness :
  ∃ ai, play 3 (MinesweeperAI.init 3 3) [((0, 0), 0); ((1, 1), 1)]%Z = Returns ai
        ∧ length (MinesweeperAI.knowledge ai) = 1
        ∧ ∀ s, s ∈ MinesweeperAI.knowledge ai →
               (0 < Sentence.count s
                ∧ Sentence.count s < Z.of_nat (size (Sentence.cells s)))%Z
               ∧ 2 ≤ size (Sentence.cells s).
Proof.
  eexists. split; [vm_compute; reflexivity|]. split; [vm_compute; reflexivity|].
  apply (held_sentences_are_open 3 3 {[ (2, 2)%Z ]} [((0, 0), 0); ((1, 1), 1)]%Z 3).
  - repeat constructor; try done; vm_compute; done.
  - vm_compute. reflexivity.
Defined.

(** X12.  Played with valid hints, [make_safe_move] is safe: the cell it
    returns holds no mine, lies on the board and has not been played. *)
Theorem safe_move_is_safe h w M hints fuel ai cell :
  Forall (valid_hint h w M) hints →
  play fuel (MinesweeperAI.init h w) hints = Returns ai →
  (MinesweeperAI.make_safe_move ai).1 = Some cell →
  (cell ∉ M) ∧ on_board h w cell ∧ (cell ∉ MinesweeperAI.moves_made ai).
Proof.
  intros Hvalid Hplay Hmove.
  apply head_Some_elem_of, elem_of_elements in Hmove.
  destruct (play_sound M fuel (MinesweeperAI.init h w) hints ai) as (_ & Hs & _);
    [apply sound_init | done | done |].
  pose proof (play_within fuel (MinesweeperAI.init h w) hints ai) as Hin. simpl in Hin.
  split_and!; [set_solver | | set_solver].
  apply Hin; [| |done|set_solver].
  - intros c. simpl. rewrite !elem_of_union, elem_of_covered.
    intros [[?|?]|(s & Hs' & _)]; [set_solver | set_solver | by apply elem_of_nil in Hs'].
  - apply (Forall_impl _ _ _ Hvalid). by intros [c n] (? & _).
Qed.

Lemma safe_move_is_safe_witness :
  let M : gset Cell := {[ (2, 2)%Z ]} in
  ∃ ai cell, play 2 (MinesweeperAI.init 3 3) [((0, 0), 0)]%Z = Returns ai
             ∧ (MinesweeperAI.make_safe_move ai).1 = Some cell
             ∧ (cell ∉ M) ∧ on_board 3 3 cell ∧ (cell ∉ MinesweeperAI.moves_made ai).
Proof.
  intros M. eexists _, _. split; [vm_compute; reflexivity|].
  split; [vm_compute; reflexivity|].
  apply (safe_move_is_safe 3 3 M [((0, 0), 0)]%Z 2).
  - repeat constructor; try done; vm_compute; done.
  - vm_compute. reflexivity.
  - vm_compute. reflexivity.
Defined.

(** ** Choosing a move *)

(** X13.  [make_random_move] leaves the knowledge base as it is.  It returns
    nothing exactly when it has no candidate; what it returns has not been
    played, is no confirmed mine, and has its first coordinate below the
    width and its second below the height, which puts it on the board when
    the board is square.  Every candidate is returned for some draw of the
    generator. *)
Theorem make_random_move_spec ai :
  (∀ draw, (MinesweeperAI.make_random_move ai draw).2 = ai)
  ∧ (∀ draw, (MinesweeperAI.make_random_move ai draw).1 = None
             ↔ MinesweeperAI.random_candidates ai = ∅)
  ∧ (∀ draw cell,
       (MinesweeperAI.make_random_move ai draw).1 = Some cell →
       (cell ∉ MinesweeperAI.moves_made ai)
       ∧ (cell ∉ MinesweeperAI.mines ai)
       ∧ ((0 ≤ cell.1 ∧ cell.1 < MinesweeperAI.width ai)%Z
          ∧ (0 ≤ cell.2 ∧ cell.2 < MinesweeperAI.height ai)%Z)
       ∧ (MinesweeperAI.height ai = MinesweeperAI.width ai →
          on_board (MinesweeperAI.height ai) (MinesweeperAI.width ai) cell))
  ∧ (∀ cell, cell ∈ MinesweeperAI.random_candidates ai →
             ∃ draw, (MinesweeperAI.make_random_move ai draw).1 = Some cell).
Proof.
  split_and!.
  - intros draw. apply make_random_move_candidates.
  - intros draw. apply make_random_move_candidates.
  - intros draw cell Hc.
    apply (proj2 (proj2 (make_random_move_candidates ai draw))) in Hc.
    apply elem_of_random_candidates in Hc as (Hb & ? & ?).
    do 3 (split; [done|]). intros Heq. unfold on_board. rewrite Heq in *. lia.
  - intros cell (i & Hi)%elem_of_elements%list_elem_of_lookup. exists i.
    unfold MinesweeperAI.make_random_move. cbn [fst].
    rewrite Nat.mod_small; [done|]. by eapply lookup_lt_Some.
Qed.

Lemma make_random_move_spec_witness :
  let ai := MinesweeperAI.mark_mine (MinesweeperAI.init 2 2) (0, 0)%Z in
  ∃ cell, (MinesweeperAI.make_random_move ai 0).1 = Some cell ∧ on_board 2 2 cell.
Proof.
  intros ai. eexists. split; [vm_compute; reflexivity|].
  apply (proj2 (proj2 (proj2
           (proj1 (proj2 (proj2 (make_random_move_spec ai))) 0 _ ltac:(vm_compute; reflexivity))))).
  reflexivity.
Defined.

(** ** The board *)


(** ** The second half of a pass *)

(** X15.  The second half of a pass neither loses nor invents anything: a
    mine placement makes all the sentences held after it true exactly when
    it makes all the sentences held before it true. *)
Theorem subsume_keeps_information M k :
  Forall (true_of M) (MinesweeperAI.subsume_list k) ↔ Forall (true_of M) k.
Proof.
  split.
  - intros Hafter. by apply subsume_list_entails, Forall_app in Hafter as [? _].
  - intros Hk. eapply Forall_sublist_of; [apply subsume_list_sublist|].
    apply Forall_app. split; [done|]. rewrite Forall_fmap. apply Forall_forall.
    intros p Hp. unfold compose. apply subset_pairs_inv in Hp as (Ha & Hb & Hsub).
    rewrite Forall_forall in Hk. apply true_of_difference; [auto | auto | apply Hsub].
Qed.

(** ** Playing through [add_knowledge] alone *)

Section played_facts.
Import MinesweeperAI.
Implicit Types (ai a : MinesweeperAI.t) (s : Sentence.t) (c cell : Cell).

Lemma carried_tidy : carried tidy.
Proof.
  split.
  - intros a s (Hp & Hsm & Hms) Hs. split_and!.
    + by apply pruned_mark_known.
    + destruct (mark_known_fields a (elements (Sentence.known_safes s))
                  (elements (Sentence.known_mines s))) as (-> & -> & ->).
      rewrite !list_to_set_elements_L.
      unfold pruned in Hp. rewrite Forall_forall in Hp. specialize (Hp s Hs).
      pose proof (known_safes_subseteq s). pose proof (known_mines_subseteq s).
      pose proof (known_mines_known_safes_apart_aux s). set_solver.
    + destruct (mark_known_fields a (elements (Sentence.known_safes s))
                  (elements (Sentence.known_mines s))) as (-> & _ & ->).
      set_solver.
  - intros a k (Hp & ? & ?) Hsub. split_and!; [|done|done].
    by apply (carried_drop pruned carried_pruned).
  - intros a (Hp & ? & ?). split_and!; [|done|done].
    by apply (carried_extend pruned carried_pruned).
Qed.

Lemma play_tidy fuel ai hints ai' :
  tidy ai → play fuel ai hints = Returns ai' → tidy ai'.
Proof.
  revert ai. induction hints as [|[cell n] hints IH]; intros ai Hai Hp.
  { by injection Hp as <-. }
  simpl in Hp.
  destruct (add_knowledge fuel ai cell n) as [ai1| |] eqn:Hadd; [|done|done].
  simpl in Hp. apply (IH ai1); [|done].
  eapply (loop_carried _ _ _ _ carried_tidy); [|exact Hadd].
  destruct Hai as (Hp1 & Hsm & Hms). split; [by apply pruned_add_sentence|].
  rewrite add_sentence_spec. simpl. set_solver.
Qed.

End played_facts.

(** X16.  Whatever the hints, right or wrong, a knowledge base fed through
    [add_knowledge] alone keeps every played cell among the safe cells,
    records a cell as both safe and mine only if it has been played, and so
    [make_safe_move] never returns a cell recorded as a mine. *)
Theorem safe_move_avoids_recorded_mines h w hints fuel ai :
  play fuel (MinesweeperAI.init h w) hints = Returns ai →
  MinesweeperAI.moves_made ai ⊆ MinesweeperAI.safes ai
  ∧ MinesweeperAI.safes ai ∩ MinesweeperAI.mines ai ⊆ MinesweeperAI.moves_made ai
  ∧ ∀ cell, (MinesweeperAI.make_safe_move ai).1 = Some cell →
            cell ∉ MinesweeperAI.mines ai.
Proof.
  intros Hplay.
  destruct (play_tidy fuel (MinesweeperAI.init h w) hints ai) as (_ & Hsm & Hms);
    [|done|].
  { split; [apply pruned_init|]. simpl. set_solver. }
  split_and!; [done|done|].
  intros cell Hmove. apply head_Some_elem_of, elem_of_elements in Hmove. set_solver.
Qed.

Lemma safe_move_avoids_recorded_mines_witness :
  ∃ ai, play 3 (MinesweeperAI.init 1 2) [((0, 0), 1); ((0, 1), 0)]%Z = Returns ai
        ∧ MinesweeperAI.safes ai ∩ MinesweeperAI.mines ai = {[ (0, 1)%Z ]}
        ∧ MinesweeperAI.moves_made ai ⊆ MinesweeperAI.safes ai
        ∧ MinesweeperAI.safes ai ∩ MinesweeperAI.mines ai ⊆ MinesweeperAI.moves_made ai
        ∧ ∀ cell, (MinesweeperAI.make_safe_move ai).1 = Some cell →
                  cell ∉ MinesweeperAI.mines ai.
Proof.
  eexists. split; [vm_compute; reflexivity|]. split; [vm_compute; reflexivity|].
  apply (safe_move_avoids_recorded_mines 1 2 [((0, 0), 1); ((0, 1), 0)]%Z 3).
  vm_compute. reflexivity.
Defined.

(** ** Building the board *)

Section construction.
Import MinesweeperGame.
Implicit Types (g : Minesweeper.t) (cell c : Cell) (board : list (list bool)).

Lemma py_index_None {A} (l : list A) i :
  py_index l i = None ↔ ¬ (- Z.of_nat (length l) ≤ i ∧ i < Z.of_nat (length l))%Z.
Proof.
  unfold py_index. repeat case_bool_decide.
  - rewrite lookup_ge_None. lia.
  - rewrite lookup_ge_None. lia.
  - split; [lia|done].
Qed.

Lemma py_index_nonneg {A} (l : list A) i :
  (0 ≤ i)%Z → py_index l i = l !! Z.to_nat i.
Proof. intros. unfold py_index. by rewrite bool_decide_true. Qed.

Lemma py_index_wrap {A} (l : list A) i :
  (- Z.of_nat (length l) ≤ i ∧ i < 0)%Z →
  py_index l i = py_index l (Z.of_nat (length l) + i).
Proof.
  intros. unfold py_index.
  rewrite (bool_decide_false (0 ≤ i)%Z), (bool_decide_true (- _ ≤ i)%Z) by lia.
  by rewrite bool_decide_true by lia.
Qed.

Lemma foldl_append_const {A B} (x : A) (l : list B) :
  foldl (λ acc _, acc ++ [x]) [] l = replicate (length l) x.
Proof.
  assert (∀ acc, foldl (λ acc _, acc ++ [x]) acc l = acc ++ replicate (length l) x) as H.
  { induction l as [|b l IH]; intros acc; simpl; [by rewrite app_nil_r|].
    rewrite IH, <-app_assoc. done. }
  apply H.
Qed.

Lemma length_range lo hi : length (range lo hi) = Z.to_nat (hi - lo).
Proof. unfold range. by rewrite length_fmap, length_seq. Qed.

Lemma empty_board_replicate h w :
  empty_board h w = replicate (Z.to_nat h) (replicate (Z.to_nat w) false).
Proof.
  unfold empty_board. rewrite !foldl_append_const, !length_range.
  by rewrite !Z.sub_0_r.
Qed.

Lemma rectangular_empty_board h w : rectangular (Minesweeper.mk h w (empty_board h w)).
Proof.
  rewrite empty_board_replicate. split; simpl; [by rewrite length_replicate|].
  apply Forall_replicate. by rewrite length_replicate.
Qed.

Lemma board_at_empty_board h w i j :
  Minesweeper.board_at (Minesweeper.mk h w (empty_board h w)) i j = false.
Proof.
  unfold Minesweeper.board_at. simpl. rewrite empty_board_replicate.
  destruct (replicate _ _ !! Z.to_nat i) as [row|] eqn:Hrow; [|done].
  apply lookup_replicate in Hrow as [-> _]. simpl.
  destruct (replicate _ _ !! Z.to_nat j) as [b|] eqn:Hb; [|done].
  by apply lookup_replicate in Hb as [-> _].
Qed.

Lemma mine_set_empty_board h w : mine_set (Minesweeper.mk h w (empty_board h w)) = ∅.
Proof.
  apply set_eq. intros c. rewrite elem_of_mine_set. simpl.
  rewrite board_at_empty_board. set_solver.
Qed.

Lemma rectangular_set_mine h w board i j :
  rectangular (Minesweeper.mk h w board) →
  rectangular (Minesweeper.mk h w (set_mine board i j)).
Proof.
  intros [Hl Hr]. split; simpl in *.
  - unfold set_mine. by rewrite length_alter.
  - unfold set_mine. apply Forall_alter; [done|].
    intros row _ Hrow. by rewrite length_insert.
Qed.

Lemma board_at_set_mine h w board i j i' j' :
  rectangular (Minesweeper.mk h w board) →
  on_board h w (i, j) → on_board h w (i', j') →
  Minesweeper.board_at (Minesweeper.mk h w (set_mine board i j)) i' j'
  = if decide ((i', j') = (i, j)) then true
    else Minesweeper.board_at (Minesweeper.mk h w board) i' j'.
Proof.
  intros [Hl Hr] [Hi Hj] [Hi' Hj']. simpl in *.
  unfold Minesweeper.board_at, set_mine. simpl.
  rewrite list_lookup_alter.
  destruct (decide (Z.to_nat i = Z.to_nat i')) as [Heq|Hne].
  - rewrite Heq.
    destruct (board !! Z.to_nat i') as [row|] eqn:Hrow.
    2:{ apply lookup_ge_None in Hrow. lia. }
    simpl. rewrite Forall_forall in Hr.
    pose proof (Hr row (list_elem_of_lookup_2 _ _ _ Hrow)) as Hlen.
    rewrite list_lookup_insert.
    destruct (decide (Z.to_nat j = Z.to_nat j' ∧ Z.to_nat j < length row)) as [[Hj1 Hj2]|Hnej].
    + rewrite decide_True; [done|]. f_equal; lia.
    + rewrite decide_False; [done|]. intros [= ? ?]. lia.
  - rewrite decide_False; [done|]. intros [= ? ?]. lia.
Qed.

Lemma mine_set_set_mine h w board i j :
  rectangular (Minesweeper.mk h w board) →
  on_board h w (i, j) →
  mine_set (Minesweeper.mk h w (set_mine board i j))
  = {[(i, j)]} ∪ mine_set (Minesweeper.mk h w board).
Proof.
  intros Hrect Hon. apply set_eq. intros [i' j'].
  rewrite elem_of_union, elem_of_singleton, !elem_of_mine_set. simpl.
  split.
  - intros [Hon' Hb]. rewrite board_at_set_mine in Hb by done.
    destruct (decide _); [by left|by right].
  - intros [[= -> ->]|[Hon' Hb]].
    + split; [done|]. rewrite board_at_set_mine by done. by rewrite decide_True.
    + split; [done|]. rewrite board_at_set_mine by done. by destruct (decide _).
Qed.

Lemma randrange_Returns n d i :
  randrange n d = Returns i → (0 ≤ i ∧ i < n)%Z.
Proof.
  unfold randrange. case_bool_decide; [|done]. intros [= <-].
  by apply Z.mod_pos_bound.
Qed.

Lemma place_spec target h w draws board placed r :
  rectangular (Minesweeper.mk h w board) →
  placed = mine_set (Minesweeper.mk h w board) →
  place target h w draws board placed = Returns r →
  rectangular (Minesweeper.mk h w r.1)
  ∧ r.2 = mine_set (Minesweeper.mk h w r.1)
  ∧ Z.of_nat (size r.2) = target.
Proof.
  revert board placed.
  induction draws as [|[d1 d2] draws IH]; intros board placed Hrect Hplaced Hp;
    simpl in Hp; case_bool_decide as Hsz;
    try (injection Hp as <-; by simpl); [done|].
  destruct (randrange h d1) as [i| |] eqn:Hi; [|done|done]. simpl in Hp.
  destruct (randrange w d2) as [j| |] eqn:Hj; [|done|done]. simpl in Hp.
  apply randrange_Returns in Hi, Hj.
  destruct (Minesweeper.board_at _ i j); [by apply (IH board placed)|].
  apply (IH (set_mine board i j) ({[(i, j)]} ∪ placed)); [| |done].
  - by apply rectangular_set_mine.
  - rewrite mine_set_set_mine by done. by rewrite Hplaced.
Qed.

Lemma place_never_raises target h w draws board placed e :
  (0 < h)%Z → (0 < w)%Z →
  place target h w draws board placed ≠ Raises e.
Proof.
  intros Hh Hw. revert board placed.
  induction draws as [|[d1 d2] draws IH]; intros board placed;
    simpl; case_bool_decide; try done.
  unfold randrange. rewrite !bool_decide_true by done. simpl.
  destruct (Minesweeper.board_at _ _ _); apply IH.
Qed.

Lemma length_bind_same {A B} (f : A → list B) (l : list A) n :
  (∀ x, length (f x) = n) → length (l ≫= f) = length l * n.
Proof.
  intros Hf. induction l as [|x l IH]; [done|].
  rewrite bind_cons, length_app, IH, Hf. done.
Qed.

Lemma NoDup_cells h w : NoDup (i ← range 0 h; j ← range 0 w; [(i, j)]).
Proof.
  apply NoDup_bind; [| |apply NoDup_range].
  - intros i1 i2 c _ _ (j1 & H1 & _)%list_elem_of_bind (j2 & H2 & _)%list_elem_of_bind.
    apply list_elem_of_singleton in H1, H2. congruence.
  - intros i _. apply NoDup_bind; [| |apply NoDup_range].
    + intros j1 j2 c _ _ H1 H2. apply list_elem_of_singleton in H1, H2. congruence.
    + intros j _. apply NoDup_singleton.
Qed.

Lemma length_cells h w :
  length (i ← range 0 h; j ← range 0 w; [(i, j)]) = Z.to_nat h * Z.to_nat w.
Proof.
  rewrite (length_bind_same _ _ (Z.to_nat w)), length_range; [f_equal; lia|].
  intros i. rewrite (length_bind_same _ _ 1), length_range; [lia|done].
Qed.

Lemma elem_of_cells h w c :
  c ∈ (i ← range 0 h; j ← range 0 w; [(i, j)]) ↔ on_board h w c.
Proof.
  destruct c as [i j]. unfold on_board. rewrite list_elem_of_bind. simpl. split.
  - intros (i' & (j' & Hc & Hj)%list_elem_of_bind & Hi).
    apply list_elem_of_singleton in Hc as [= -> ->].
    by apply elem_of_range in Hi, Hj.
  - intros [Hi Hj]. exists i. split; [|by apply elem_of_range].
    apply list_elem_of_bind. exists j. split; [by apply list_elem_of_singleton|].
    by apply elem_of_range.
Qed.

Lemma size_mine_set g :
  size (mine_set g) ≤ Z.to_nat (Minesweeper.height g) * Z.to_nat (Minesweeper.width g).
Proof.
  rewrite <-length_cells.
  rewrite <-(size_list_to_set (C:=gset Cell)) by apply NoDup_cells.
  apply subseteq_size. intros c. rewrite elem_of_mine_set, elem_of_list_to_set, elem_of_cells.
  tauto.
Qed.

Lemma place_can_return k target h w board placed :
  rectangular (Minesweeper.mk h w board) →
  placed = mine_set (Minesweeper.mk h w board) →
  target = Z.of_nat (size placed + k) →
  size placed + k ≤ Z.to_nat h * Z.to_nat w →
  ∃ draws r, place target h w draws board placed = Returns r.
Proof.
  revert board placed. induction k as [|k IH]; intros board placed Hrect Hplaced Ht Hle.
  { exists [], (board, placed). simpl. rewrite bool_decide_true; [done|]. lia. }
  set (all := list_to_set (i ← range 0 h; j ← range 0 w; [(i, j)]) : gset Cell).
  assert (size all = Z.to_nat h * Z.to_nat w) as Hall.
  { unfold all. rewrite size_list_to_set by apply NoDup_cells. apply length_cells. }
  assert (placed ⊆ all) as Hsub.
  { intros c. rewrite Hplaced, elem_of_mine_set. unfold all.
    rewrite elem_of_list_to_set, elem_of_cells. tauto. }
  assert (∃ c, c ∈ all ∖ placed) as [[i j] Hc].
  { apply size_pos_elem_of. rewrite size_difference by done. lia. }
  apply elem_of_difference in Hc as [Hon Hfree].
  unfold all in Hon. rewrite elem_of_list_to_set, elem_of_cells in Hon.
  destruct (IH (set_mine board i j) ({[(i, j)]} ∪ placed)) as (draws & r & Hr).
  - by apply rectangular_set_mine.
  - rewrite mine_set_set_mine by done. by rewrite Hplaced.
  - rewrite size_union by set_solver. rewrite size_singleton. lia.
  - rewrite size_union by set_solver. rewrite size_singleton. lia.
  - exists ((Z.to_nat i, Z.to_nat j) :: draws), r. simpl.
    rewrite bool_decide_false by lia.
    destruct Hon as [Hi Hj]. simpl in Hi, Hj. unfold randrange.
    rewrite !bool_decide_true by lia. simpl.
    rewrite !Z2Nat.id, !Z.mod_small by lia.
    destruct (Minesweeper.board_at _ i j) eqn:Hb; [|done].
    exfalso. apply Hfree. rewrite Hplaced. apply elem_of_mine_set. done.
Qed.

Lemma is_mine_on_board g c :
  rectangular g →
  on_board (Minesweeper.height g) (Minesweeper.width g) c →
  Minesweeper.is_mine g c = Some (Minesweeper.board_at g c.1 c.2).
Proof.
  intros [Hl Hr] [Hi Hj]. unfold Minesweeper.is_mine, Minesweeper.board_at.
  rewrite py_index_nonneg by lia.
  destruct (Minesweeper.board g !! Z.to_nat c.1) as [row|] eqn:Hrow.
  2:{ apply lookup_ge_None in Hrow. lia. }
  simpl. rewrite py_index_nonneg by lia.
  rewrite Forall_forall in Hr.
  pose proof (Hr row (list_elem_of_lookup_2 _ _ _ Hrow)) as Hlen.
  destruct (row !! Z.to_nat c.2) as [b|] eqn:Hb; [done|].
  apply lookup_ge_None in Hb. lia.
Qed.

End construction.

(** ** The board of the game *)

(** X17.  On a board of [height] rows of [width] cells, [is_mine] raises
    [IndexError] exactly when a coordinate is outside [-height, height) or
    [-width, width).  On the board it answers whether the cell holds a mine; a
    negative coordinate within range is not refused but read from the far
    end, so [(i, j)] with [-height <= i < 0] is answered as [(height + i, j)],
    and likewise for [j]. *)
Theorem is_mine_spec g i j :
  rectangular g →
  let h := Minesweeper.height g in
  let w := Minesweeper.width g in
  (Minesweeper.is_mine g (i, j) = None
   ↔ ¬ ((- h ≤ i ∧ i < h) ∧ (- w ≤ j ∧ j < w))%Z)
  ∧ (on_board h w (i, j) →
     Minesweeper.is_mine g (i, j) = Some (bool_decide ((i, j) ∈ mine_set g)))
  ∧ ((- h ≤ i ∧ i < 0)%Z →
     Minesweeper.is_mine g (i, j) = Minesweeper.is_mine g (h + i, j)%Z)
  ∧ ((- w ≤ j ∧ j < 0)%Z →
     Minesweeper.is_mine g (i, j) = Minesweeper.is_mine g (i, w + j)%Z).
Proof.
  intros Hrect h w. pose proof Hrect as [Hl Hr]. fold h in Hl. fold w in Hr.
  rewrite Forall_forall in Hr. split_and!.
  - unfold Minesweeper.is_mine. cbn [fst snd].
    destruct (py_index (Minesweeper.board g) i) as [row|] eqn:Hrow; simpl.
    + assert (row ∈ Minesweeper.board g) as Hin.
      { unfold py_index in Hrow. repeat case_bool_decide; try done;
          by eapply list_elem_of_lookup_2. }
      apply Hr in Hin.
      assert (py_index (Minesweeper.board g) i ≠ None) as Hi by congruence.
      rewrite py_index_None in Hi. rewrite py_index_None. lia.
    + apply py_index_None in Hrow. split; [lia|done].
  - intros Hon. rewrite is_mine_on_board by done. f_equal. simpl.
    destruct (Minesweeper.board_at g i j) eqn:Hb.
    + rewrite bool_decide_true; [done|]. by apply elem_of_mine_set.
    + rewrite bool_decide_false; [done|]. rewrite elem_of_mine_set. simpl.
      intros [_ ?]. congruence.
  - intros Hi. unfold Minesweeper.is_mine. cbn [fst snd].
    rewrite (py_index_wrap _ i) by lia. do 2 f_equal. lia.
  - intros Hj. unfold Minesweeper.is_mine. cbn [fst snd].
    destruct (py_index (Minesweeper.board g) i) as [row|] eqn:Hrow; [|done]. simpl.
    assert (row ∈ Minesweeper.board g) as Hin.
    { unfold py_index in Hrow. repeat case_bool_decide; try done;
        by eapply list_elem_of_lookup_2. }
    apply Hr in Hin. rewrite (py_index_wrap _ j) by lia. f_equal. lia.
Qed.

Lemma is_mine_spec_witness :
  let g := Minesweeper.mk 2 2 [[false; false]; [false; true]] in
  Minesweeper.is_mine g (-1, -1)%Z = Some true
  ∧ (Minesweeper.is_mine g (-1, -1)%Z = None
     ↔ ¬ ((- 2 ≤ -1 ∧ -1 < 2) ∧ (- 2 ≤ -1 ∧ -1 < 2))%Z)
  ∧ (on_board 2 2 (-1, -1)%Z →
     Minesweeper.is_mine g (-1, -1)%Z = Some (bool_decide ((-1, -1)%Z ∈ mine_set g)))
  ∧ ((- 2 ≤ -1 ∧ -1 < 0)%Z →
     Minesweeper.is_mine g (-1, -1)%Z = Minesweeper.is_mine g (2 + -1, -1)%Z)
  ∧ ((- 2 ≤ -1 ∧ -1 < 0)%Z →
     Minesweeper.is_mine g (-1, -1)%Z = Minesweeper.is_mine g (-1, 2 + -1)%Z).
Proof.
  intros g. split; [vm_compute; reflexivity|].
  apply (is_mine_spec g (-1) (-1)).
  split; [reflexivity|]. repeat constructor.
Defined.

(** X18.  When the constructor returns, the board has [height] rows of
    [width] cells, [self.mines] is exactly the set of cells of the board that
    read [True], there are exactly [mines] of them, no mine has been found,
    and the game counts as won if and only if it has no mine. *)
Theorem init_spec height width target draws g :
  MinesweeperGame.init height width target draws = Returns g →
  Minesweeper.height (MinesweeperGame.grid g) = height
  ∧ Minesweeper.width (MinesweeperGame.grid g) = width
  ∧ rectangular (MinesweeperGame.grid g)
  ∧ MinesweeperGame.mines g = mine_set (MinesweeperGame.grid g)
  ∧ Z.of_nat (size (MinesweeperGame.mines g)) = target
  ∧ MinesweeperGame.mines_found g = ∅
  ∧ (MinesweeperGame.won g = true ↔ target = 0%Z).
Proof.
  unfold MinesweeperGame.init. intros Hinit.
  destruct (MinesweeperGame.place _ _ _ _ _ _) as [r| |] eqn:Hplace; [|done|done].
  simpl in Hinit. injection Hinit as <-. simpl.
  destruct (place_spec _ _ _ _ _ _ _ (rectangular_empty_board height width)
              (eq_sym (mine_set_empty_board height width)) Hplace) as (Hrect & Hm & Hsz).
  split_and!; try done.
  unfold MinesweeperGame.won. simpl. rewrite bool_decide_eq_true. split.
  - intros Hw. rewrite <-Hw, size_empty in Hsz. lia.
  - intros Hz. symmetry. apply leibniz_equiv, size_empty_inv. lia.
Qed.

Lemma init_spec_witness :
  ∃ g, MinesweeperGame.init 2 2 1 [(3, 1); (0, 0)] = Returns g
       ∧ MinesweeperGame.mines g = {[ (1, 1)%Z ]}
       ∧ Minesweeper.height (MinesweeperGame.grid g) = 2%Z
       ∧ Minesweeper.width (MinesweeperGame.grid g) = 2%Z
       ∧ rectangular (MinesweeperGame.grid g)
       ∧ MinesweeperGame.mines g = mine_set (MinesweeperGame.grid g)
       ∧ Z.of_nat (size (MinesweeperGame.mines g)) = 1%Z
       ∧ MinesweeperGame.mines_found g = ∅
       ∧ (MinesweeperGame.won g = true ↔ 1%Z = 0%Z).
Proof.
  eexists. split; [vm_compute; reflexivity|]. split; [vm_compute; reflexivity|].
  apply (init_spec 2 2 1 [(3, 1); (0, 0)]). vm_compute. reflexivity.
Defined.

(** X19.  Asked for a negative number of mines, or for more mines than the
    board has cells, the constructor never returns; on a board with at least
    one cell it raises nothing either: the placement loop is still running
    after any number of draws. *)
Theorem init_impossible_target height width target draws :
  (target < 0 ∨ Z.max 0 height * Z.max 0 width < target)%Z →
  (∀ g, MinesweeperGame.init height width target draws ≠ Returns g)
  ∧ ((0 < height)%Z → (0 < width)%Z →
     MinesweeperGame.init height width target draws = OutOfFuel).
Proof.
  intros Ht.
  assert (∀ g, MinesweeperGame.init height width target draws ≠ Returns g) as Hno.
  { intros g Hg. unfold MinesweeperGame.init in Hg.
    destruct (MinesweeperGame.place _ _ _ _ _ _) as [r| |] eqn:Hplace; [|done|done].
    destruct (place_spec _ _ _ _ _ _ _ (rectangular_empty_board height width)
                (eq_sym (mine_set_empty_board height width)) Hplace) as (_ & Hm & Hsz).
    pose proof (size_mine_set (Minesweeper.mk height width r.1)) as Hle.
    rewrite <-Hm in Hle. cbn [Minesweeper.height Minesweeper.width] in Hle.
    assert (Z.of_nat (Z.to_nat height * Z.to_nat width)
            = Z.max 0 height * Z.max 0 width)%Z as Heq.
    { rewrite Nat2Z.inj_mul. f_equal; lia. }
    lia. }
  split; [done|]. intros Hh Hw.
  unfold MinesweeperGame.init in *.
  destruct (MinesweeperGame.place _ _ _ _ _ _) as [r|e|] eqn:Hplace; [| |done].
  - exfalso. by eapply Hno.
  - exfalso. exact (place_never_raises _ _ _ _ _ _ e Hh Hw Hplace).
Qed.

Lemma init_impossible_target_witness :
  (∀ g, MinesweeperGame.init 1 1 2 [(0, 0); (0, 0); (5, 7)] ≠ Returns g)
  ∧ ((0 < 1)%Z → (0 < 1)%Z →
     MinesweeperGame.init 1 1 2 [(0, 0); (0, 0); (5, 7)] = OutOfFuel).
Proof.
  apply (init_impossible_target 1 1 2 [(0, 0); (0, 0); (5, 7)]). right. reflexivity.
Defined.

(** X20.  On a board without cells a request for any number of mines other
    than zero makes the constructor raise [ValueError] at its first draw. *)
Theorem init_no_cells_raises height width target d draws :
  target ≠ 0%Z → (height ≤ 0 ∨ width ≤ 0)%Z →
  MinesweeperGame.init height width target (d :: draws) = Raises ValueError.
Proof.
  intros Ht Hdim. unfold MinesweeperGame.init. destruct d as [d1 d2].
  cbn [MinesweeperGame.place]. rewrite size_empty.
  rewrite bool_decide_false by lia. unfold MinesweeperGame.randrange.
  destruct (bool_decide (0 < height)%Z) eqn:Hh; [|done].
  apply bool_decide_eq_true in Hh. rewrite bool_decide_false by lia. done.
Qed.

Lemma init_no_cells_raises_witness :
  MinesweeperGame.init 3 0 1 [(0, 0)] = Raises ValueError.
Proof. apply (init_no_cells_raises 3 0 1 (0, 0) []); [done | right; done]. Defined.

(** X21.  For every number of mines from zero to the number of cells of the
    board, some sequence of draws makes the constructor return. *)
Theorem init_can_return height width target :
  (0 ≤ height)%Z → (0 ≤ width)%Z → (0 ≤ target ∧ target ≤ height * width)%Z →
  ∃ draws g, MinesweeperGame.init height width target draws = Returns g.
Proof.
  intros Hh Hw Ht.
  destruct (place_can_return (Z.to_nat target) target height width
              (MinesweeperGame.empty_board height width) ∅) as (draws & r & Hr).
  - apply rectangular_empty_board.
  - symmetry. apply mine_set_empty_board.
  - rewrite size_empty. lia.
  - rewrite size_empty. nia.
  - exists draws. eexists. unfold MinesweeperGame.init. rewrite Hr. done.
Qed.

Lemma init_can_return_witness :
  ∃ draws g, MinesweeperGame.init 2 3 6 draws = Returns g.
Proof. apply (init_can_return 2 3 6); lia. Defined.
